(** * dirsync.py: one-way directory synchronisation

    A shallow embedding of [dirsync.py].  The program walks a source and a
    target directory tree, builds a dictionary from relative paths to MD5
    hex digests ([None] for directories and named pipes, [0] for files that
    could not be read), copies what is new or changed and removes what is
    orphaned, then re-arms itself on a [sched.scheduler].

    Layout of the development:
    - MD5 as [hashlib.md5] computes it (the digest of all bytes fed);
    - the filesystem: two flat trees (source side, target side), each a list
      of entries keyed by their path relative to the side's root;
    - a state/exception monad [M] whose state holds both trees, the log and
      the scheduler queue, and whose exceptions are Python's [OSError]
      family;
    - [get_md5], [get_files_in_path], [copy_verify_file], [copy_objects],
      [remove_objects], [do_sync_dirs] and [main] transcribed over [M];
    - [pathlib.PurePosixPath] with [joinpath] and [relative_to] for
      [get_absolute_path] and [get_relative_path]. *)

From Stdlib Require Import List String Ascii ZArith Bool Arith Lia.
From Stdlib Require Import Init.Byte.
From Equations Require Import Equations.
Import ListNotations.
Open Scope list_scope.

(* ------------------------------------------------------------------ *)
(** ** MD5 (RFC 1321), as computed by [hashlib.md5] *)

Module MD5.
Open Scope Z_scope.

Definition mask32 : Z := Z.ones 32.
Definition add32 (a b : Z) : Z := Z.land (a + b) mask32.
Definition not32 (x : Z) : Z := Z.lxor x mask32.
Definition rotl32 (x c : Z) : Z :=
  Z.land (Z.lor (Z.shiftl x c) (Z.shiftr x (32 - c))) mask32.

(** [K.(i) = floor (2^32 * |sin (i + 1)|)]. *)
Definition K : list Z :=
  [3614090360; 3905402710; 606105819; 3250441966; 4118548399; 1200080426;
   2821735955; 4249261313; 1770035416; 2336552879; 4294925233; 2304563134;
   1804603682; 4254626195; 2792965006; 1236535329; 4129170786; 3225465664;
   643717713; 3921069994; 3593408605; 38016083; 3634488961; 3889429448;
   568446438; 3275163606; 4107603335; 1163531501; 2850285829; 4243563512;
   1735328473; 2368359562; 4294588738; 2272392833; 1839030562; 4259657740;
   2763975236; 1272893353; 4139469664; 3200236656; 681279174; 3936430074;
   3572445317; 76029189; 3654602809; 3873151461; 530742520; 3299628645;
   4096336452; 1126891415; 2878612391; 4237533241; 1700485571; 2399980690;
   4293915773; 2240044497; 1873313359; 4264355552; 2734768916; 1309151649;
   4149444226; 3174756917; 718787259; 3951481745].

(** Per-round shift amounts. *)
Definition shifts : list Z :=
  [7; 12; 17; 22; 7; 12; 17; 22; 7; 12; 17; 22; 7; 12; 17; 22;
   5; 9; 14; 20; 5; 9; 14; 20; 5; 9; 14; 20; 5; 9; 14; 20;
   4; 11; 16; 23; 4; 11; 16; 23; 4; 11; 16; 23; 4; 11; 16; 23;
   6; 10; 15; 21; 6; 10; 15; 21; 6; 10; 15; 21; 6; 10; 15; 21].

Definition byte_Z (b : byte) : Z := Z.of_N (Byte.to_N b).

(** Little-endian 32-bit words of a block of bytes. *)
Fixpoint words_le (n : nat) (bs : list Z) : list Z :=
  match n with
  | O => []
  | S n' =>
      match bs with
      | b0 :: b1 :: b2 :: b3 :: rest =>
          (b0 + Z.shiftl b1 8 + Z.shiftl b2 16 + Z.shiftl b3 24)
            :: words_le n' rest
      | _ => []
      end
  end.

Record regs := mkRegs { ra : Z; rb : Z; rc : Z; rd : Z }.

Definition init_regs : regs :=
  mkRegs 1732584193 4023233417 2562383102 271733878.

Definition round (M : list Z) (r : regs) (i : nat) : regs :=
  let '(mkRegs a b c d) := r in
  let '(f, g) :=
    if (i <? 16)%nat then (Z.lor (Z.land b c) (Z.land (not32 b) d), i)
    else if (i <? 32)%nat then
      (Z.lor (Z.land d b) (Z.land (not32 d) c), ((5 * i + 1) mod 16)%nat)
    else if (i <? 48)%nat then
      (Z.lxor b (Z.lxor c d), ((3 * i + 5) mod 16)%nat)
    else (Z.lxor c (Z.lor b (not32 d)), ((7 * i) mod 16)%nat) in
  let f' := add32 (add32 (add32 f a) (nth i K 0)) (nth g M 0) in
  mkRegs d (add32 b (rotl32 f' (nth i shifts 0))) b c.

Definition block (bs : list Z) (r : regs) : regs :=
  let M := words_le 16 bs in
  let r' := fold_left (round M) (seq 0 64) r in
  mkRegs (add32 (ra r) (ra r')) (add32 (rb r) (rb r'))
         (add32 (rc r) (rc r')) (add32 (rd r) (rd r')).

Fixpoint blocks (n : nat) (bs : list Z) (r : regs) : regs :=
  match n with
  | O => r
  | S n' => blocks n' (skipn 64 bs) (block (firstn 64 bs) r)
  end.

Definition le_bytes (n : nat) (x : Z) : list Z :=
  map (fun k => Z.land (Z.shiftr x (8 * Z.of_nat k)) 255) (seq 0 n).

(** Padding: a one bit, zeros up to 56 mod 64, then the bit length. *)
Definition pad (bs : list Z) : list Z :=
  let len := List.length bs in
  let zeros := ((119 - len mod 64) mod 64)%nat in
  bs ++ [128] ++ repeat 0 zeros ++ le_bytes 8 (Z.of_nat len * 8).

Definition digest_Z (msg : list byte) : list Z :=
  let p := pad (map byte_Z msg) in
  let r := blocks (List.length p / 64) p init_regs in
  le_bytes 4 (ra r) ++ le_bytes 4 (rb r) ++ le_bytes 4 (rc r) ++ le_bytes 4 (rd r).

Definition hex_digit (n : Z) : ascii :=
  if n <? 10 then ascii_of_nat (48 + Z.to_nat n)
  else ascii_of_nat (87 + Z.to_nat n).

Fixpoint hex_string (bs : list Z) : string :=
  match bs with
  | [] => EmptyString
  | b :: rest =>
      String (hex_digit (Z.shiftr b 4)) (String (hex_digit (Z.land b 15)) (hex_string rest))
  end.

(** [hashlib.md5(msg).hexdigest()]. *)
Definition hexdigest (msg : list byte) : string := hex_string (digest_Z msg).

End MD5.

(* ------------------------------------------------------------------ *)
(** ** The filesystem *)

(** A path relative to a tree's root, as the list of its components with
    the innermost first: [a/b/c] is [["c"; "b"; "a"]] and [[]] is the root
    itself.  Its parent is its tail. *)
Definition path := list string.

Definition path_eqb (p q : path) : bool :=
  if list_eq_dec string_dec p q then true else false.

(** Whether a file can be opened, and whether a read call fails. *)
Inductive access :=
| Readable                (* opens and reads to the end *)
| NoPerm                  (* open raises PermissionError *)
| ReadFault (k : nat).    (* the k-th read call raises an I/O error *)

Inductive node :=
| NFile (c : list byte) (a : access)
| NDir
| NFifo
| NOther.                 (* device node or socket *)

(** One directory tree: its entries below the root, each under its relative
    path, in the order [os.scandir] lists them inside a directory. *)
Definition fsys := list (path * node).

Fixpoint fs_lookup (fs : fsys) (p : path) : option node :=
  match fs with
  | [] => None
  | (q, n) :: fs' => if path_eqb q p then Some n else fs_lookup fs' p
  end.

(** The node at a path; the root always exists as a directory. *)
Definition node_at (fs : fsys) (p : path) : option node :=
  match p with
  | [] => Some NDir
  | _ :: _ => fs_lookup fs p
  end.

Definition fs_put (fs : fsys) (p : path) (n : node) : fsys :=
  match fs_lookup fs p with
  | Some _ => map (fun e => if path_eqb (fst e) p then (p, n) else e) fs
  | None => fs ++ [(p, n)]
  end.

Definition fs_remove (fs : fsys) (p : path) : fsys :=
  filter (fun e => negb (path_eqb (fst e) p)) fs.

Definition is_child_of (d p : path) : bool :=
  match p with
  | [] => false
  | _ :: par => path_eqb par d
  end.

Definition has_children (fs : fsys) (d : path) : bool :=
  existsb (fun e => is_child_of d (fst e)) fs.

Definition children (fs : fsys) (d : path) : fsys :=
  filter (fun e => is_child_of d (fst e)) fs.

Definition is_dir_node (n : node) : bool :=
  match n with NDir => true | _ => false end.

(** Permission bits of an entry, for the (non-root) user running the
    program: [pm_read] and [pm_write] are the user's read and write bits
    ([chmod] sets them), [pm_own] whether the user owns the entry.  For a
    directory, read is the right to list it and write the right to create
    and remove entries in it.  For a file, the read bit is carried by its
    [access] ([NoPerm] is no read permission) and [pm_read] is not
    consulted.  The search (x) bit is not modelled: every directory is
    searchable; the sticky bit and extended attributes are not modelled
    either. *)
Record perm := mkPerm { pm_read : bool; pm_write : bool; pm_own : bool }.

(** A new entry: [mode & ~umask] gives the owner read and write. *)
Definition default_perm : perm := mkPerm true true true.

(** The permissions of one tree, by path; a path with no entry has
    [default_perm]. *)
Definition perms := list (path * perm).

Fixpoint perm_lookup (t : perms) (p : path) : option perm :=
  match t with
  | [] => None
  | (q, m) :: t' => if path_eqb q p then Some m else perm_lookup t' p
  end.

Definition perm_at (t : perms) (p : path) : perm :=
  match perm_lookup t p with Some m => m | None => default_perm end.

Definition perm_drop (t : perms) (p : path) : perms :=
  filter (fun e => negb (path_eqb (fst e) p)) t.

Definition perm_set (t : perms) (p : path) (m : perm) : perms := (p, m) :: perm_drop t p.

(** [pathlib.Path(d).glob('**/*')]: the recursive selector visits [d], then
    each subdirectory depth first, and at every visited directory lists all
    its entries.  A directory the user may not list is still visited, but
    [os.scandir] on it raises [PermissionError], which the selectors catch:
    nothing below it is listed.  The bound [n] is the depth still allowed;
    [glob_all] gives one more than the number of entries, which exceeds the
    depth of any tree (every proper ancestor of an entry is itself an
    entry). *)
Fixpoint glob_from (n : nat) (fs : fsys) (t : perms) (d : path) : fsys :=
  match n with
  | O => []
  | S n' =>
      if pm_read (perm_at t d) then
        let cs := children fs d in
        cs ++ flat_map (fun e => if is_dir_node (snd e) then glob_from n' fs t (fst e) else []) cs
      else []
  end.

Definition glob_all (fs : fsys) (t : perms) : list path :=
  map fst (glob_from (S (List.length fs)) fs t []).

(* ------------------------------------------------------------------ *)
(** ** Exceptions, log, scheduler, state *)

Inductive exc :=
| FileNotFoundError
| PermissionError
| FileExistsError
| NotADirectoryError
| IsADirectoryError
| SpecialFileError        (* shutil.SpecialFileError *)
| DirectoryNotEmpty       (* OSError, errno ENOTEMPTY *)
| IOError                 (* OSError, errno EIO *)
| NoDeviceError           (* OSError, errno ENXIO *)
| KeyboardInterrupt
| SystemExit (code : nat).

(** Subclasses of [Exception] (what [except Exception] catches). *)
Definition is_Exception (e : exc) : bool :=
  match e with KeyboardInterrupt | SystemExit _ => false | _ => true end.

(** Subclasses of [OSError]. *)
Definition is_OSError (e : exc) : bool :=
  match e with KeyboardInterrupt | SystemExit _ => false | _ => true end.

Inductive side := Source | Target.

(** An absolute location: a side's root joined with a relative path. *)
Definition loc := (side * path)%type.

Inductive level := INFO | WARNING | ERROR | CRITICAL.

Inductive msg :=
| MsgCannotGetMd5 (l : loc) (e : exc)
| MsgModifiedDuringCopy (l : loc)
| MsgCreatedDir (l : loc)
| MsgCannotCreateDir (l : loc)
| MsgCreatedFifo (l : loc)
| MsgFifoExists (l : loc)
| MsgCopied (src dst : loc)
| MsgCopyNotFound (l : loc)
| MsgCopyPermission (l : loc)
| MsgTotalNew (n : nat)
| MsgRemovedFile (l : loc)
| MsgRemoveNotFound (l : loc)
| MsgRemovePermission (l : loc)
| MsgRemovedDir (l : loc)
| MsgRemoveDirNotFound (l : loc)
| MsgRemoveDirPermission (l : loc)
| MsgTotalRemoved (n : nat)
| MsgScanningSource
| MsgScanningTarget
| MsgComparingCopy
| MsgComparingRemove
| MsgDone
| MsgStartup
| MsgLoggerInit
| MsgUsingLogFile (f : string)
| MsgOneShot
| MsgInterval (i : Z)
| MsgSourcePath
| MsgTargetPath
| MsgRootNotFound (s : side)
| MsgShutdown.

Definition logline := (level * msg)%type.

(** An entry of the [sched.scheduler] queue: delay, priority and the
    [interval] argument of the [do_sync_dirs] call it will make. *)
Record sched_event := mkEvent { ev_delay : Z; ev_priority : Z; ev_interval : Z }.

Record state := mkState {
  src_fs : fsys;
  tgt_fs : fsys;
  src_exists : bool;          (* does the source root exist *)
  tgt_exists : bool;          (* does the target root exist *)
  logs : list logline;
  queue : list sched_event;
  src_perm : perms;           (* permissions in the source tree *)
  tgt_perm : perms            (* permissions in the target tree *)
}.

Definition fs_of (st : state) (s : side) : fsys :=
  match s with Source => src_fs st | Target => tgt_fs st end.

Definition root_exists (st : state) (s : side) : bool :=
  match s with Source => src_exists st | Target => tgt_exists st end.

Definition perm_of (st : state) (s : side) : perms :=
  match s with Source => src_perm st | Target => tgt_perm st end.

Definition with_fs (st : state) (s : side) (fs : fsys) : state :=
  match s with
  | Source => mkState fs (tgt_fs st) (src_exists st) (tgt_exists st) (logs st) (queue st)
                      (src_perm st) (tgt_perm st)
  | Target => mkState (src_fs st) fs (src_exists st) (tgt_exists st) (logs st) (queue st)
                      (src_perm st) (tgt_perm st)
  end.

Definition with_perm (st : state) (s : side) (t : perms) : state :=
  match s with
  | Source => mkState (src_fs st) (tgt_fs st) (src_exists st) (tgt_exists st) (logs st) (queue st)
                      t (tgt_perm st)
  | Target => mkState (src_fs st) (tgt_fs st) (src_exists st) (tgt_exists st) (logs st) (queue st)
                      (src_perm st) t
  end.

Definition with_log (st : state) (l : logline) : state :=
  mkState (src_fs st) (tgt_fs st) (src_exists st) (tgt_exists st) (logs st ++ [l]) (queue st)
          (src_perm st) (tgt_perm st).

Definition with_queue (st : state) (q : list sched_event) : state :=
  mkState (src_fs st) (tgt_fs st) (src_exists st) (tgt_exists st) (logs st) q
          (src_perm st) (tgt_perm st).

(* ------------------------------------------------------------------ *)
(** ** The state and exception monad *)

Inductive outcome (A : Type) := Ret (a : A) | Raise (e : exc).
Arguments Ret {A} a.
Arguments Raise {A} e.

Definition M (A : Type) := state -> outcome A * state.

Definition ret {A} (a : A) : M A := fun st => (Ret a, st).
Definition raise {A} (e : exc) : M A := fun st => (Raise e, st).
Definition bind {A B} (m : M A) (k : A -> M B) : M B :=
  fun st => match m st with
            | (Ret a, st') => k a st'
            | (Raise e, st') => (Raise e, st')
            end.

Notation "x <- m ;; k" := (bind m (fun x => k))
  (at level 61, m at next level, right associativity).
Notation "m ;; k" := (bind m (fun _ => k)) (at level 61, right associativity).

(** [try: m except ...]: the handler picks the exceptions it catches and
    runs from the state reached when the exception was raised. *)
Definition try_except {A} (m : M A) (h : exc -> option (M A)) : M A :=
  fun st => match m st with
            | (Ret a, st') => (Ret a, st')
            | (Raise e, st') =>
                match h e with Some k => k st' | None => (Raise e, st') end
            end.

Definition log (lv : level) (m : msg) : M unit := fun st => (Ret tt, with_log st (lv, m)).

Definition stat (l : loc) : M (option node) :=
  fun st => (Ret (node_at (fs_of st (fst l)) (snd l)), st).

(** [pathlib.Path.is_dir] and [is_fifo]: false when nothing is there. *)
Definition is_dir (l : loc) : M bool :=
  n <- stat l ;; ret (match n with Some NDir => true | _ => false end).

Definition is_fifo (l : loc) : M bool :=
  n <- stat l ;; ret (match n with Some NFifo => true | _ => false end).

Definition put_node (l : loc) (n : node) : M unit :=
  fun st => (Ret tt, with_fs st (fst l) (fs_put (fs_of st (fst l)) (snd l) n)).

Definition del_node (l : loc) : M unit :=
  fun st => (Ret tt, with_fs st (fst l) (fs_remove (fs_of st (fst l)) (snd l))).

(** A node created where nothing was: it gets [default_perm]. *)
Definition new_node (l : loc) (n : node) : M unit :=
  fun st => (Ret tt, with_perm (with_fs st (fst l) (fs_put (fs_of st (fst l)) (snd l) n))
                               (fst l) (perm_drop (perm_of st (fst l)) (snd l))).

Definition get_perm (l : loc) : M perm :=
  fun st => (Ret (perm_at (perm_of st (fst l)) (snd l)), st).

Definition set_perm (l : loc) (m : perm) : M unit :=
  fun st => (Ret tt, with_perm st (fst l) (perm_set (perm_of st (fst l)) (snd l) m)).

(** The proper ancestors of a path, the outermost (the root) first. *)
Fixpoint ancestors (p : path) : list path :=
  match p with
  | [] => []
  | _ :: par => ancestors par ++ [par]
  end.

(** The error of a system call on a path where nothing is: path
    resolution walks the ancestors from the root; a missing one gives
    [ENOENT], one that is not a directory [ENOTDIR]; with every ancestor a
    directory, the last component is missing ([ENOENT]). *)
Fixpoint first_bad (fs : fsys) (as_ : list path) : exc :=
  match as_ with
  | [] => FileNotFoundError
  | a :: as' =>
      match node_at fs a with
      | None => FileNotFoundError
      | Some NDir => first_bad fs as'
      | Some _ => NotADirectoryError
      end
  end.

Definition missing_exc (fs : fsys) (p : path) : exc := first_bad fs (ancestors p).

(** [raise] the error of a path where nothing is. *)
Definition raise_missing {A} (l : loc) : M A :=
  fun st => (Raise (missing_exc (fs_of st (fst l)) (snd l)), st).

(** Whether the user may create and remove entries in the directory
    holding [l] (the parent of a side's root is taken to allow it). *)
Definition parent_writable (l : loc) : M bool :=
  match snd l with
  | [] => ret true
  | _ :: par => m <- get_perm (fst l, par) ;; ret (pm_write m)
  end.

(* ------------------------------------------------------------------ *)
(** ** get_md5 *)

(** The values of the dictionaries: [None], the integer [0] that [get_md5]
    returns on failure, or an MD5 hex digest string.  Python's [==] on them
    is structural equality. *)
Inductive md5val := PyNone | PyZero | PyHex (h : string).

Definition md5val_eqb (x y : md5val) : bool :=
  match x, y with
  | PyNone, PyNone => true
  | PyZero, PyZero => true
  | PyHex a, PyHex b => String.eqb a b
  | _, _ => false
  end.

Definition chunk_size : nat := 4096.

Definition fault_at (fault : option nat) (ix : nat) : bool :=
  match fault with Some k => Nat.eqb k ix | None => false end.

Definition fault_of (a : access) : option nat :=
  match a with ReadFault k => Some k | _ => None end.

(** [file.read(4096)] on the unread rest [rem]: the chunk returned and
    what is left after it. *)
Definition read_chunk (rem : list byte) : list byte := firstn chunk_size rem.
Definition after_chunk (rem : list byte) : list byte := skipn chunk_size rem.

Opaque after_chunk.

(** The loop of [get_md5]: [chunk = file.read(4096)] until an empty chunk,
    feeding each chunk to the hash object.  [fed] is everything fed so far
    (an [hashlib.md5] object's digest is the MD5 of the concatenation of
    its updates); [rem] is the unread rest of the file; [ix] counts read
    calls, and the read of block [fault] (the bytes from [4096 * fault]
    on) raises. *)
Equations? read_loop (fed : list byte) (ix : nat) (fault : option nat)
    (rem : list byte) : outcome (list byte) by wf (List.length rem) lt :=
  read_loop fed ix fault [] := Ret fed;
  read_loop fed ix fault (b :: bs) :=
    if fault_at fault ix then Raise IOError
    else read_loop (fed ++ read_chunk (b :: bs)) (S ix) fault (after_chunk (b :: bs)).
Proof. Transparent after_chunk. unfold after_chunk. rewrite length_skipn. simpl. unfold chunk_size. lia. Qed.

Transparent after_chunk.

(** [open(filename, 'rb')]: the content and access of the file opened.
    On a directory, [open] succeeds when the directory may be read and
    Python then raises [IsADirectoryError].  A named pipe is never opened
    by the program: the scan hashes regular files only, and
    [copy_verify_file] hashes only after [shutil.copy2], which refuses
    pipes; it is modelled as refusing to open. *)
Definition open_rb (l : loc) : M (list byte * access) :=
  n <- stat l ;;
  match n with
  | None => raise_missing l
  | Some NDir => m <- get_perm l ;; if pm_read m then raise IsADirectoryError else raise PermissionError
  | Some NFifo => raise NoDeviceError
  | Some NOther => raise NoDeviceError
  | Some (NFile _ NoPerm) => raise PermissionError
  | Some (NFile c a) => ret (c, a)
  end.

(** [open(filename, 'rb')] followed by the read loop and [hexdigest()]. *)
Definition md5_stream (l : loc) : M string :=
  f <- open_rb l ;;
  match read_loop [] 0 (fault_of (snd f)) (fst f) with
  | Ret fed => ret (MD5.hexdigest fed)
  | Raise e => raise e
  end.

Definition get_md5 (l : loc) : M md5val :=
  try_except (h <- md5_stream l ;; ret (PyHex h))
    (fun e => if is_Exception e
              then Some (log WARNING (MsgCannotGetMd5 l e) ;; ret PyZero)
              else None).

(* ------------------------------------------------------------------ *)
(** ** get_files_in_path *)

(** A Python dict from relative paths, in insertion order. *)
Definition pydict := list (path * md5val).

Fixpoint dict_set (d : pydict) (k : path) (v : md5val) : pydict :=
  match d with
  | [] => [(k, v)]
  | (k', v') :: d' => if path_eqb k' k then (k', v) :: d' else (k', v') :: dict_set d' k v
  end.

Fixpoint dict_get (d : pydict) (k : path) : option md5val :=
  match d with
  | [] => None
  | (k', v) :: d' => if path_eqb k' k then Some v else dict_get d' k
  end.

(** [k in d.keys()] and [v in d.values()]. *)
Definition in_keys (k : path) (d : pydict) : bool := existsb (path_eqb k) (map fst d).
Definition in_values (v : md5val) (d : pydict) : bool := existsb (md5val_eqb v) (map snd d).

Fixpoint scan_entries (s : side) (es : list path) (acc : pydict) : M pydict :=
  match es with
  | [] => ret acc
  | file :: es' =>
      n <- stat (s, file) ;;
      match n with
      | Some (NFile _ _) =>
          file_md5 <- get_md5 (s, file) ;; scan_entries s es' (dict_set acc file file_md5)
      | Some NDir | Some NFifo => scan_entries s es' (dict_set acc file PyNone)
      | _ => scan_entries s es' acc    (* special files are ignored *)
      end
  end.

Definition get_files_in_path (s : side) : M pydict :=
  fun st => scan_entries s (glob_all (fs_of st s) (perm_of st s)) [] st.

(* ------------------------------------------------------------------ *)
(** ** Filesystem operations on a location *)

(** [os.mkdir] and [os.mkfifo]: [EEXIST] first, then the resolution of
    the parent, then the write permission on it. *)
Definition os_mknode (n : node) (l : loc) : M unit :=
  cur <- stat l ;;
  match cur, snd l with
  | Some _, _ => raise FileExistsError
  | None, [] => raise FileExistsError
  | None, _ :: par =>
      pn <- stat (fst l, par) ;;
      match pn with
      | None => raise_missing l
      | Some NDir =>
          w <- parent_writable l ;;
          if w then new_node l n else raise PermissionError
      | Some _ => raise NotADirectoryError
      end
  end.

Definition os_mkdir := os_mknode NDir.
Definition mkfifo := os_mknode NFifo.

(** [Path.mkdir(parents=False, exist_ok=True)]. *)
Definition mkdir_exist_ok (l : loc) : M unit :=
  try_except (os_mkdir l)
    (fun e => match e with
              | FileNotFoundError => None
              | _ => if is_OSError e
                     then Some (d <- is_dir l ;; if d then ret tt else raise e)
                     else None
              end).

(** [Path.mkdir(parents=True, exist_ok=True)]. *)
Fixpoint mkdir_parents (s : side) (p : path) : M unit :=
  try_except (os_mkdir (s, p))
    (fun e => match e with
              | FileNotFoundError =>
                  Some (match p with
                        | [] => raise FileNotFoundError
                        | _ :: par => mkdir_parents s par ;; mkdir_exist_ok (s, p)
                        end)
              | _ => if is_OSError e
                     then Some (d <- is_dir (s, p) ;; if d then ret tt else raise e)
                     else None
              end).

(** The read bit of an entry, for [chmod] to copy: a file's is its
    [access]. *)
Definition read_bit (n : node) (m : perm) : bool :=
  match n with
  | NFile _ NoPerm => false
  | NFile _ _ => true
  | _ => pm_read m
  end.

(** A file's [access] after [chmod] gives it read bit [r]: a read fault
    stays. *)
Definition chmod_access (r : bool) (a : access) : access :=
  if r then match a with NoPerm => Readable | _ => a end else NoPerm.

(** [shutil.copystat]: [os.stat] on [src], then [os.utime] on [dst] with
    the source's times (which needs the user to own [dst]: else [EPERM]),
    then [os.chmod] of [dst] to the source's mode.  Times are not
    modelled. *)
Definition copystat (src dst : loc) : M unit :=
  a <- stat src ;;
  match a with
  | None => raise_missing src
  | Some sn =>
      b <- stat dst ;;
      match b with
      | None => raise_missing dst
      | Some dn =>
          ms <- get_perm src ;; md <- get_perm dst ;;
          if pm_own md then
            let r := read_bit sn ms in
            set_perm dst (mkPerm r (pm_write ms) (pm_own md)) ;;
            match dn with
            | NFile c acc => put_node dst (NFile c (chmod_access r acc))
            | _ => ret tt
            end
          else raise PermissionError
      end
  end.

(** [open(dst, 'wb')]: refuses what cannot be written, else truncates the
    file (which keeps its permissions) or creates it. *)
Definition open_wb (l : loc) : M unit :=
  n <- stat l ;;
  match n with
  | Some NDir => raise IsADirectoryError
  | Some NOther => raise NoDeviceError
  | Some NFifo => raise NoDeviceError
  | Some (NFile _ a) =>
      m <- get_perm l ;;
      if pm_write m then put_node l (NFile [] (chmod_access true a)) else raise PermissionError
  | None =>
      match snd l with
      | [] => raise IsADirectoryError
      | _ :: par =>
          pn <- stat (fst l, par) ;;
          match pn with
          | None => raise_missing l
          | Some NDir =>
              w <- parent_writable l ;;
              if w then new_node l (NFile [] Readable) else raise PermissionError
          | Some _ => raise NotADirectoryError
          end
      end
  end.

(** The writes into the file opened by [open_wb]. *)
Definition write_data (l : loc) (data : list byte) : M unit :=
  n <- stat l ;;
  match n with
  | Some (NFile _ a) => put_node l (NFile data a)
  | _ => ret tt
  end.

(** [shutil.copyfile] (the two sides are different trees, so the
    same-file check never fires): a named pipe at either end raises
    [SpecialFileError]; then [open(src, 'rb')] and [open(dst, 'wb')], the
    latter's [IsADirectoryError] turned into [FileNotFoundError] when [dst]
    does not exist; then the transfer, which writes as it reads: a read
    fault at block [k] leaves the first [k] blocks in [dst] and raises. *)
Definition copyfile (src dst : loc) : M unit :=
  a <- stat src ;; b <- stat dst ;;
  match a, b with
  | Some NFifo, _ | _, Some NFifo => raise SpecialFileError
  | _, _ =>
      f <- open_rb src ;;
      try_except (open_wb dst)
        (fun e => match e with
                  | IsADirectoryError =>
                      Some (d <- stat dst ;;
                            match d with None => raise FileNotFoundError | Some _ => raise e end)
                  | _ => None
                  end) ;;
      let c := fst f in
      match fault_of (snd f) with
      | Some k =>
          if Nat.ltb (chunk_size * k) (List.length c)
          then write_data dst (firstn (chunk_size * k) c) ;; raise IOError
          else write_data dst c
      | None => write_data dst c
      end
  end.

Definition basename (p : path) : string :=
  match p with x :: _ => x | [] => EmptyString end.

(** [shutil.copy2]: into a directory, the copy keeps the source's name. *)
Definition copy2 (src dst : loc) : M unit :=
  d <- is_dir dst ;;
  let dst' := if d then (fst dst, basename (snd src) :: snd dst) else dst in
  copyfile src dst' ;; copystat src dst'.

(** [Path.unlink] and [Path.rmdir]: the resolution of the path, then
    the write permission on its directory, then the kind of node. *)
Definition unlink (l : loc) : M unit :=
  n <- stat l ;;
  match n with
  | None => raise_missing l
  | Some x =>
      w <- parent_writable l ;;
      if w then
        match x with
        | NDir => raise IsADirectoryError
        | _ => del_node l
        end
      else raise PermissionError
  end.

Definition rmdir (l : loc) : M unit :=
  n <- stat l ;;
  match n with
  | None => raise_missing l
  | Some x =>
      w <- parent_writable l ;;
      if w then
        match x with
        | NDir =>
            fun st => if has_children (fs_of st (fst l)) (snd l)
                      then (Raise DirectoryNotEmpty, st)
                      else del_node l st
        | _ => raise NotADirectoryError
        end
      else raise PermissionError
  end.

(* ------------------------------------------------------------------ *)
(** ** copy_verify_file, copy_objects, remove_objects *)

Definition copy_verify_file (source_file target_file : loc) : M bool :=
  copy2 source_file target_file ;;
  h1 <- get_md5 source_file ;;
  h2 <- get_md5 target_file ;;
  let hashes_equal := md5val_eqb h1 h2 in
  (if hashes_equal then ret tt else log WARNING (MsgModifiedDuringCopy source_file)) ;;
  ret hashes_equal.

(** The test of [copy_objects]:
    [file not in target_files.keys() or (md5 is not None and md5 not in target_files.values())]. *)
Definition should_copy (target_files : pydict) (file : path) (md5 : md5val) : bool :=
  negb (in_keys file target_files)
  || (negb (md5val_eqb md5 PyNone) && negb (in_values md5 target_files)).

(** The body of the [if] in [copy_objects], for one decided entry. *)
Definition copy_item (file : path) (total : nat) : M nat :=
  let source_file := (Source, file) in
  let target_file := (Target, file) in
  d <- is_dir source_file ;;
  if d then
    try_except
      (mkdir_parents Target file ;; copystat source_file target_file ;;
       log INFO (MsgCreatedDir target_file) ;; ret (S total))
      (fun e => match e with
                | PermissionError => Some (log ERROR (MsgCannotCreateDir target_file) ;; ret total)
                | _ => None
                end)
  else
    f <- is_fifo source_file ;;
    if f then
      try_except
        (mkfifo target_file ;; copystat source_file target_file ;;
         log INFO (MsgCreatedFifo target_file) ;; ret (S total))
        (fun e => match e with
                  | FileExistsError => Some (log INFO (MsgFifoExists target_file) ;; ret total)
                  | _ => None
                  end)
    else
      try_except
        (_ <- copy_verify_file source_file target_file ;;
         log INFO (MsgCopied source_file target_file) ;; ret (S total))
        (fun e => match e with
                  | FileNotFoundError => Some (log ERROR (MsgCopyNotFound source_file) ;; ret total)
                  | PermissionError => Some (log ERROR (MsgCopyPermission source_file) ;; ret total)
                  | _ => None
                  end).

(** One iteration of the loop of [copy_objects]. *)
Definition copy_step (target_files : pydict) (entry : path * md5val) (total : nat) : M nat :=
  if should_copy target_files (fst entry) (snd entry)
  then copy_item (fst entry) total
  else ret total.

Fixpoint copy_loop (target_files : pydict) (es : pydict) (total : nat) : M nat :=
  match es with
  | [] => ret total
  | e :: es' => total' <- copy_step target_files e total ;; copy_loop target_files es' total'
  end.

Definition copy_objects (source_files target_files : pydict) : M unit :=
  total <- copy_loop target_files source_files 0 ;;
  log INFO (MsgTotalNew total).

(** The first loop of [remove_objects]: unlink orphans that are not
    directories, collect the orphan directories. *)
Fixpoint remove_sweep (source_files : pydict) (ks : list path)
    (dirs_to_remove : list path) (total : nat) : M (list path * nat) :=
  match ks with
  | [] => ret (dirs_to_remove, total)
  | file :: ks' =>
      if in_keys file source_files then remove_sweep source_files ks' dirs_to_remove total
      else
        let target_file := (Target, file) in
        d <- is_dir target_file ;;
        if d then remove_sweep source_files ks' (dirs_to_remove ++ [file]) total
        else
          total' <- try_except
            (unlink target_file ;; log INFO (MsgRemovedFile target_file) ;; ret (S total))
            (fun e => match e with
                      | FileNotFoundError => Some (log ERROR (MsgRemoveNotFound target_file) ;; ret total)
                      | PermissionError => Some (log ERROR (MsgRemovePermission target_file) ;; ret total)
                      | _ => None
                      end) ;;
          remove_sweep source_files ks' dirs_to_remove total'
  end.

(** The second loop: [rmdir] each collected directory in turn. *)
Fixpoint remove_dirs (ds : list path) (total : nat) : M nat :=
  match ds with
  | [] => ret total
  | p :: ds' =>
      let l := (Target, p) in
      total' <- try_except
        (rmdir l ;; log INFO (MsgRemovedDir l) ;; ret (S total))
        (fun e => match e with
                  | FileNotFoundError => Some (log ERROR (MsgRemoveDirNotFound l) ;; ret total)
                  | PermissionError => Some (log ERROR (MsgRemoveDirPermission l) ;; ret total)
                  | _ => None
                  end) ;;
      remove_dirs ds' total'
  end.

Definition remove_objects (source_files target_files : pydict) : M unit :=
  r <- remove_sweep source_files (map fst target_files) [] 0 ;;
  total <- remove_dirs (fst r) (snd r) ;;
  log INFO (MsgTotalRemoved total).

(* ------------------------------------------------------------------ *)
(** ** do_sync_dirs, the scheduler and main *)

(** [schedule.enter(interval, 1, do_sync_dirs, (..., interval))]. *)
Definition sched_enter (interval : Z) : M sched_event :=
  fun st => let ev := mkEvent interval 1 interval in
            (Ret ev, with_queue st (queue st ++ [ev])).

Definition do_sync_dirs (interval : Z) : M sched_event :=
  log INFO MsgScanningSource ;;
  source_files <- get_files_in_path Source ;;
  log INFO MsgScanningTarget ;;
  target_files <- get_files_in_path Target ;;
  log INFO MsgComparingCopy ;;
  copy_objects source_files target_files ;;
  log INFO MsgComparingRemove ;;
  remove_objects source_files target_files ;;
  log INFO MsgDone ;;
  sched_enter interval.

(** [schedule.run()]: pop the first event and run its action, which enters
    the next one.  The loop never ends while events remain; [fuel] is the
    number of events run in this finite unfolding of it. *)
Fixpoint sched_run (fuel : nat) : M unit :=
  match fuel with
  | O => ret tt
  | S fuel' =>
      fun st =>
        match queue st with
        | [] => (Ret tt, st)
        | ev :: rest =>
            (_ <- do_sync_dirs (ev_interval ev) ;; sched_run fuel') (with_queue st rest)
        end
  end.

(** The parsed command line. *)
Record args := mkArgs {
  arg_oneshot : bool;
  arg_interval : Z;
  arg_logfile : string
}.

(** [for path in [source_path, target_path]: if not path.exists(): ... exit(1)]. *)
Definition check_root (s : side) : M unit :=
  fun st =>
    if root_exists st s then (Ret tt, st)
    else (log CRITICAL (MsgRootNotFound s) ;; raise (SystemExit 1)) st.

(** [except KeyboardInterrupt: log.info(...); exit(0)]. *)
Definition on_keyboard_interrupt (e : exc) : option (M unit) :=
  match e with
  | KeyboardInterrupt => Some (log INFO MsgShutdown ;; raise (SystemExit 0))
  | _ => None
  end.

Definition main (a : args) (fuel : nat) : M unit :=
  log INFO MsgStartup ;;
  log INFO MsgLoggerInit ;;
  log INFO (MsgUsingLogFile (arg_logfile a)) ;;
  (if arg_oneshot a then log INFO MsgOneShot else log INFO (MsgInterval (arg_interval a))) ;;
  log INFO MsgSourcePath ;;
  log INFO MsgTargetPath ;;
  check_root Source ;;
  check_root Target ;;
  (fun st => (Ret tt, with_queue st [])) ;;        (* a fresh sched.scheduler *)
  try_except
    (_ <- do_sync_dirs (arg_interval a) ;;
     if arg_oneshot a then ret tt else sched_run fuel)
    on_keyboard_interrupt.


(* ------------------------------------------------------------------ *)
(** ** get_relative_path and get_absolute_path over pathlib.PurePosixPath *)

(** A pure POSIX path: its root ([""], ["/"] or ["//"]) and its parts. *)
Record purepath := mkPure { pp_root : string; pp_parts : list string }.

Local Open Scope string_scope.

Fixpoint split_slash (s : string) : list string :=
  match s with
  | EmptyString => [EmptyString]
  | String c s' =>
      if Ascii.eqb c "/"%char then EmptyString :: split_slash s'
      else match split_slash s' with
           | [] => [String c EmptyString]
           | x :: xs => String c x :: xs
           end
  end.

(** [PurePosixPath(s)]: two leading slashes (exactly) are kept as the
    root, more collapse to one; empty and ["."] parts are dropped. *)
Definition pure_path (s : string) : purepath :=
  let root := if String.prefix "//" s && negb (String.prefix "///" s) then "//"
              else if String.prefix "/" s then "/" else "" in
  mkPure root (filter (fun x => negb (String.eqb x "") && negb (String.eqb x ".")) (split_slash s)).

(** [PurePath.joinpath]: an argument with a root replaces the path. *)
Definition joinpath (a b : purepath) : purepath :=
  if String.eqb (pp_root b) "" then mkPure (pp_root a) (pp_parts a ++ pp_parts b) else b.

Fixpoint strip_prefix (pre l : list string) : option (list string) :=
  match pre, l with
  | [], _ => Some l
  | x :: pre', y :: l' => if String.eqb x y then strip_prefix pre' l' else None
  | _ :: _, [] => None
  end.

(** [PurePath.relative_to]: [None] is the [ValueError] raised when the
    path is not under [other]. *)
Definition relative_to (a other : purepath) : option purepath :=
  if String.eqb (pp_root a) (pp_root other)
  then option_map (mkPure "") (strip_prefix (pp_parts other) (pp_parts a))
  else None.

Definition get_relative_path (rootpath abspath : purepath) : option purepath :=
  relative_to abspath rootpath.

Definition get_absolute_path (rootpath relpath : purepath) : purepath :=
  joinpath rootpath relpath.

Local Close Scope string_scope.

(* ================================================================== *)
(** * Properties *)

(** The expected digest of the test file holding ["0"] (test_dirsync.py). *)
Example md5_test_vector :
  MD5.hexdigest (list_byte_of_string "0") = "cfcd208495d565ef66e7dff9f98764da"%string.
Proof. vm_compute. reflexivity. Qed.

Example md5_empty :
  MD5.hexdigest [] = "d41d8cd98f00b204e9800998ecf8427e"%string.
Proof. vm_compute. reflexivity. Qed.


(* ------------------------------------------------------------------ *)
(** ** Read-only computations *)

(** A computation that leaves everything but the log as it found it. *)
Definition only_logs {A} (m : M A) : Prop :=
  forall st r st', m st = (r, st') ->
  exists l, st' = mkState (src_fs st) (tgt_fs st) (src_exists st) (tgt_exists st)
                          (logs st ++ l) (queue st) (src_perm st) (tgt_perm st).

Lemma only_logs_ret {A} (a : A) : only_logs (ret a).
Proof.
  intros st r st' H. inversion H; subst. exists [].
  destruct st'; simpl; rewrite app_nil_r; reflexivity.
Qed.

Lemma only_logs_raise {A} (e : exc) : only_logs (@raise A e).
Proof.
  intros st r st' H. inversion H; subst. exists [].
  destruct st'; simpl; rewrite app_nil_r; reflexivity.
Qed.

Lemma only_logs_log lv m : only_logs (log lv m).
Proof.
  intros st r st' H. inversion H; subst. exists [(lv, m)]. reflexivity.
Qed.

Lemma only_logs_stat l : only_logs (stat l).
Proof.
  intros st r st' H. inversion H; subst. exists [].
  destruct st'; simpl; rewrite app_nil_r; reflexivity.
Qed.

Lemma only_logs_bind {A B} (m : M A) (k : A -> M B) :
  only_logs m -> (forall a, only_logs (k a)) -> only_logs (bind m k).
Proof.
  intros Hm Hk st r st' H. unfold bind in H.
  destruct (m st) as [[a|e] s1] eqn:E; apply Hm in E as [l1 ->].
  - apply Hk in H as [l2 ->]. exists (l1 ++ l2). simpl. rewrite app_assoc. reflexivity.
  - inversion H; subst. exists l1. reflexivity.
Qed.

Lemma only_logs_try {A} (m : M A) (h : exc -> option (M A)) :
  only_logs m -> (forall e k, h e = Some k -> only_logs k) -> only_logs (try_except m h).
Proof.
  intros Hm Hh st r st' H. unfold try_except in H.
  destruct (m st) as [[a|e] s1] eqn:E; apply Hm in E as [l1 ->].
  - inversion H; subst. exists l1. reflexivity.
  - destruct (h e) as [k|] eqn:Eh.
    + apply (Hh _ _ Eh) in H as [l2 ->]. exists (l1 ++ l2). simpl.
      rewrite app_assoc. reflexivity.
    + inversion H; subst. exists l1. reflexivity.
Qed.

Create HintDb readonly.
#[local] Hint Resolve only_logs_ret only_logs_raise only_logs_log only_logs_stat : readonly.

Lemma read_loop_no_fault fed ix rem :
  read_loop fed ix None rem = Ret (fed ++ rem).
Proof.
  funelim (read_loop fed ix None rem); simp read_loop; simpl.
  - rewrite app_nil_r. reflexivity.
  - match goal with IH : read_loop _ _ _ _ = Ret _ |- _ => rewrite IH end.
    unfold read_chunk. rewrite <- app_assoc. rewrite firstn_skipn. reflexivity.
Qed.

Lemma read_loop_raises fed ix fault rem e :
  read_loop fed ix fault rem = Raise e -> e = IOError.
Proof.
  funelim (read_loop fed ix fault rem); simp read_loop;
    destruct (fault_at fault ix); intros E; try congruence; auto.
Qed.

Lemma bind_ret_eq {A B} (m : M A) (k : A -> M B) st a st1 :
  m st = (Ret a, st1) -> bind m k st = k a st1.
Proof. intros H. unfold bind. rewrite H. reflexivity. Qed.

Lemma first_bad_Exception fs as_ : is_Exception (first_bad fs as_) = true.
Proof.
  induction as_ as [|x as_ IH]; simpl; [reflexivity|].
  destruct (node_at fs x) as [[]|]; auto.
Qed.

Lemma missing_exc_Exception fs p : is_Exception (missing_exc fs p) = true.
Proof. apply first_bad_Exception. Qed.

Lemma missing_exc_cases fs p :
  missing_exc fs p = FileNotFoundError \/ missing_exc fs p = NotADirectoryError.
Proof.
  unfold missing_exc. induction (ancestors p) as [|x as_ IH]; simpl; [auto|].
  destruct (node_at fs x) as [[]|]; auto.
Qed.

Lemma open_rb_same_state l st r st' : open_rb l st = (r, st') -> st' = st.
Proof.
  unfold open_rb, bind, stat, get_perm, raise_missing, raise, ret. simpl.
  destruct (node_at _ _) as [[c a| | | ]|]; intros H;
    try (destruct (pm_read _)); try (destruct a); inversion H; reflexivity.
Qed.

Lemma open_rb_raises_Exception l st e st' :
  open_rb l st = (Raise e, st') -> is_Exception e = true.
Proof.
  unfold open_rb, bind, stat, get_perm, raise_missing, raise, ret. simpl.
  destruct (node_at _ _) as [[c a| | | ]|]; intros H;
    try (destruct (pm_read _)); try (destruct a); inversion H; subst; try reflexivity.
  apply missing_exc_Exception.
Qed.

Lemma open_rb_file st s p c a :
  node_at (fs_of st s) p = Some (NFile c a) -> a <> NoPerm ->
  open_rb (s, p) st = (Ret (c, a), st).
Proof.
  intros H Ha. unfold open_rb, bind, stat. simpl. rewrite H.
  destruct a; [reflexivity|congruence|reflexivity].
Qed.

Lemma md5_stream_same_state l st r st' : md5_stream l st = (r, st') -> st' = st.
Proof.
  unfold md5_stream, bind at 1. destruct (open_rb l st) as [[f|e] s1] eqn:E;
    apply open_rb_same_state in E; subst s1; [|intros H; inversion H; reflexivity].
  destruct (read_loop _ _ _ _); intros H; inversion H; reflexivity.
Qed.

Lemma only_logs_md5_stream l : only_logs (md5_stream l).
Proof.
  intros st r st' H. apply md5_stream_same_state in H. subst st'. exists [].
  destruct st; simpl; rewrite app_nil_r; reflexivity.
Qed.

Lemma only_logs_get_md5 l : only_logs (get_md5 l).
Proof.
  unfold get_md5. apply only_logs_try.
  - apply only_logs_bind; [apply only_logs_md5_stream | auto with readonly].
  - intros e k H. destruct (is_Exception e); inversion H; subst.
    apply only_logs_bind; auto with readonly.
Qed.

#[local] Hint Resolve only_logs_get_md5 : readonly.

Lemma md5_stream_raises_Exception l st e st' :
  md5_stream l st = (Raise e, st') -> is_Exception e = true.
Proof.
  unfold md5_stream, bind at 1. destruct (open_rb l st) as [[f|e0] s1] eqn:E.
  - destruct (read_loop _ _ _ _) eqn:R; intros H; inversion H; subst.
    apply read_loop_raises in R. subst. reflexivity.
  - intros H. inversion H; subst. exact (open_rb_raises_Exception _ _ _ _ E).
Qed.

Lemma md5_stream_readable st s p c :
  node_at (fs_of st s) p = Some (NFile c Readable) ->
  md5_stream (s, p) st = (Ret (MD5.hexdigest c), st).
Proof.
  intros H. unfold md5_stream. rewrite (bind_ret_eq _ _ _ _ _ (open_rb_file st s p c Readable H ltac:(discriminate))).
  simpl. rewrite read_loop_no_fault. reflexivity.
Qed.

Lemma get_md5_readable st s p c :
  node_at (fs_of st s) p = Some (NFile c Readable) ->
  get_md5 (s, p) st = (Ret (PyHex (MD5.hexdigest c)), st).
Proof.
  intros H. unfold get_md5, try_except, bind at 1.
  rewrite (md5_stream_readable _ _ _ _ H). reflexivity.
Qed.

Lemma get_md5_failing l st e st' :
  md5_stream l st = (Raise e, st') ->
  get_md5 l st = (Ret PyZero, with_log st' (WARNING, MsgCannotGetMd5 l e)).
Proof.
  intros H. pose proof (md5_stream_raises_Exception _ _ _ _ H) as HE.
  unfold get_md5, try_except, bind at 1. rewrite H. rewrite HE. reflexivity.
Qed.

Lemma get_md5_total l st :
  exists v st', get_md5 l st = (Ret v, st').
Proof.
  destruct (md5_stream l st) as [[h|e] st'] eqn:E.
  - exists (PyHex h), st'. unfold get_md5, try_except, bind at 1. rewrite E. reflexivity.
  - eexists; eexists. apply (get_md5_failing _ _ _ _ E).
Qed.

Lemma get_md5_value l st v st' :
  get_md5 l st = (Ret v, st') ->
  (v = PyZero /\ exists e st'', md5_stream l st = (Raise e, st''))
  \/ (exists h, v = PyHex h /\ md5_stream l st = (Ret h, st)).
Proof.
  intros H. destruct (md5_stream l st) as [[h|e] s1] eqn:E.
  - right. exists h. unfold get_md5, try_except, bind at 1 in H. rewrite E in H.
    inversion H; subst. split; [reflexivity|].
    pose proof E as E'. apply md5_stream_same_state in E'. subst. reflexivity.
  - left. rewrite (get_md5_failing _ _ _ _ E) in H. inversion H; subst.
    split; [reflexivity|]. exists e, s1. reflexivity.
Qed.

Lemma md5_stream_missing st s p :
  node_at (fs_of st s) p = None ->
  md5_stream (s, p) st = (Raise (missing_exc (fs_of st s) p), st).
Proof. intros H. unfold md5_stream, open_rb, bind, stat. simpl. rewrite H. reflexivity. Qed.

Lemma strip_prefix_app (pre rest : list string) :
  strip_prefix pre (pre ++ rest) = Some rest.
Proof. induction pre; simpl; [reflexivity|]. rewrite String.eqb_refl. exact IHpre. Qed.

Lemma strip_prefix_some (pre l rest : list string) :
  strip_prefix pre l = Some rest -> l = pre ++ rest.
Proof.
  revert l. induction pre as [|x pre IH]; intros l H; simpl in H.
  - inversion H. reflexivity.
  - destruct l as [|y l]; [discriminate|].
    destruct (String.eqb x y) eqn:E; [|discriminate].
    apply String.eqb_eq in E. subst. simpl. f_equal. apply IH. exact H.
Qed.

Local Open Scope string_scope.

(* ------------------------------------------------------------------ *)
(** ** Fingerprints *)


Definition empty_state : state := mkState [] [] true true [] [] [] [].

(** The target holds a regular file [f]. *)
Definition file_f_state : state :=
  mkState [] [(["f"], NFile (list_byte_of_string "1") Readable)] true true [] [] [] [].


(** C8: for a readable file, the digest streamed in 4096-byte chunks is
    the MD5 of the whole content ([read_loop] feeds exactly the content);
    [get_md5] leaves the state unchanged, so repeated calls agree, and two
    files with the same content get the same fingerprint. *)
Theorem get_md5_content (st1 st2 : state) (l1 l2 : loc) (c : list byte)
  (H1 : node_at (fs_of st1 (fst l1)) (snd l1) = Some (NFile c Readable))
  (H2 : node_at (fs_of st2 (fst l2)) (snd l2) = Some (NFile c Readable)) :
  read_loop [] 0 None c = Ret c /\
  get_md5 l1 st1 = (Ret (PyHex (MD5.hexdigest c)), st1) /\
  fst (get_md5 l1 st1) = fst (get_md5 l2 st2).
Proof.
  destruct l1 as [s1 p1], l2 as [s2 p2]. simpl in *.
  split; [rewrite read_loop_no_fault; reflexivity|].
  rewrite (get_md5_readable _ _ _ _ H1), (get_md5_readable _ _ _ _ H2).
  split; reflexivity.
Qed.

Definition big_content : list byte := repeat "a"%byte 4097.

Definition two_copies_state : state :=
  mkState [(["f"], NFile big_content Readable)]
          [(["g"], NDir); (["h"; "g"], NFile big_content Readable)] true true [] [] [] [].

Lemma get_md5_content_witness :
  node_at (fs_of two_copies_state Source) ["f"] = Some (NFile big_content Readable) /\
  node_at (fs_of two_copies_state Target) ["h"; "g"] = Some (NFile big_content Readable) /\
  fst (get_md5 (Source, ["f"]) two_copies_state)
  = fst (get_md5 (Target, ["h"; "g"]) two_copies_state).
Proof.
  split; [reflexivity|]. split; [reflexivity|].
  apply (get_md5_content two_copies_state two_copies_state (Source, ["f"]) (Target, ["h"; "g"])
           big_content); reflexivity.
Defined.

(** A source file that cannot be read, and a target holding the same path
    with other content plus an unrelated unreadable file. *)
Definition unreadable_state : state :=
  mkState [(["f"], NFile (list_byte_of_string "1") NoPerm)]
          [(["f"], NFile (list_byte_of_string "0") Readable);
           (["g"], NFile (list_byte_of_string "2") NoPerm)] true true [] [] [] [].

(** C3 fails: the sentinel of two different unreadable files is the same
    integer [0], and [0 == 0]; so the unreadable source file [f] is judged
    already present (the target's unreadable [g] also maps to [0]) and no
    copy is attempted: after a full pass the target [f] still holds ["0"]. *)
Lemma unreadable_sentinel_cex :
  fst (get_md5 (Source, ["f"]) unreadable_state) = Ret PyZero /\
  fst (get_md5 (Target, ["g"]) unreadable_state) = Ret PyZero /\
  md5val_eqb PyZero PyZero = true /\
  fs_lookup (tgt_fs (snd (do_sync_dirs 600 unreadable_state))) ["f"]
  = Some (NFile (list_byte_of_string "0") Readable) /\
  In (INFO, MsgTotalNew 0) (logs (snd (do_sync_dirs 600 unreadable_state))).
Proof. vm_compute. repeat split. repeat (first [left; reflexivity | right]). Qed.

(** C3, as the code has it: the sentinel [0] of an unreadable file differs
    from every hex digest but equals the sentinel of any other unreadable
    file; a source file mapped to [0] whose path is in the target snapshot
    is re-copied only when no target value is [0]. *)
Theorem unreadable_sentinel_amended (st1 st2 : state) (l1 l2 : loc) (e : exc) (st1' : state)
  (Hfail : md5_stream l1 st1 = (Raise e, st1')) :
  fst (get_md5 l1 st1) = Ret PyZero /\
  (forall v2 st2', get_md5 l2 st2 = (Ret v2, st2') ->
     (md5val_eqb PyZero v2 = true <-> exists e2 st2'', md5_stream l2 st2 = (Raise e2, st2''))) /\
  (forall (T : pydict) (p : path) (n : nat) (st : state), in_keys p T = true ->
     (in_values PyZero T = true -> copy_step T (p, PyZero) n st = (Ret n, st)) /\
     (in_values PyZero T = false -> copy_step T (p, PyZero) n st = copy_item p n st)).
Proof.
  split; [rewrite (get_md5_failing _ _ _ _ Hfail); reflexivity|]. split.
  - intros v2 st2' H. destruct (get_md5_value _ _ _ _ H) as [[-> Hs]|[h [-> Hs]]].
    + split; [intros _; exact Hs | reflexivity].
    + split; [discriminate|]. intros [e2 [st'' Hs']]. congruence.
  - intros T p n st Hk. unfold copy_step, should_copy. simpl. rewrite Hk. simpl.
    split; intros Hv; rewrite Hv; reflexivity.
Qed.

Lemma unreadable_sentinel_amended_witness :
  md5_stream (Source, ["f"]) unreadable_state = (Raise PermissionError, unreadable_state) /\
  fst (get_md5 (Source, ["f"]) unreadable_state) = Ret PyZero.
Proof.
  split; [reflexivity|].
  exact (proj1 (unreadable_sentinel_amended unreadable_state unreadable_state
                  (Source, ["f"]) (Target, ["g"]) PermissionError unreadable_state
                  eq_refl)).
Defined.

(* ------------------------------------------------------------------ *)
(** ** Paths *)

(** C10: [get_relative_path] undoes [get_absolute_path] on a relative
    path, and [get_absolute_path] undoes [get_relative_path] on a path
    lying under the root (where [relative_to] does not raise). *)
Theorem path_roundtrip :
  (forall r p, pp_root p = "" -> get_relative_path r (get_absolute_path r p) = Some p) /\
  (forall r a q, get_relative_path r a = Some q -> get_absolute_path r q = a).
Proof.
  split.
  - intros [rr rp] [pr pp] H. simpl in H. subst pr.
    unfold get_relative_path, get_absolute_path, joinpath, relative_to. simpl.
    rewrite String.eqb_refl, strip_prefix_app. reflexivity.
  - intros [rr rp] [ar ap] q H.
    unfold get_relative_path, relative_to in H. simpl in H.
    destruct (String.eqb ar rr) eqn:E; [|discriminate].
    apply String.eqb_eq in E. subst ar.
    destruct (strip_prefix rp ap) as [rest|] eqn:Es; [|discriminate].
    simpl in H. inversion H; subst q. apply strip_prefix_some in Es. subst ap.
    unfold get_absolute_path, joinpath. simpl. reflexivity.
Qed.

(** The paths of test_dirsync.py. *)
Lemma path_roundtrip_witness :
  pure_path "/test/root/long/path" = get_absolute_path (pure_path "/test/root") (pure_path "long/path") /\
  get_relative_path (pure_path "/test/root") (pure_path "/test/root/long/path") = Some (pure_path "long/path") /\
  get_relative_path (pure_path "/test/root")
    (get_absolute_path (pure_path "/test/root") (pure_path "long/path")) = Some (pure_path "long/path") /\
  get_absolute_path (pure_path "/test/root") (pure_path "long/path") = pure_path "/test/root/long/path".
Proof.
  split; [reflexivity|]. split; [reflexivity|]. split.
  - apply (proj1 path_roundtrip). reflexivity.
  - apply (proj2 path_roundtrip). reflexivity.
Defined.

(* ------------------------------------------------------------------ *)
(** ** Removal order *)

(** An empty source, and a target holding an orphan directory [a] whose
    only content is the orphan directory [a/b]. *)
Definition nested_orphans_state : state :=
  mkState [] [(["a"], NDir); (["b"; "a"], NDir)] true true [] [] [] [].

(** C2 fails on nested orphan directories: the glob lists [a] before
    [a/b], so the deferred list is [[a; a/b]] and [rmdir a] runs while [a/b]
    is still there.  The resulting [OSError] (ENOTEMPTY) is not one of the
    two exceptions [remove_objects] catches, so it escapes [do_sync_dirs]
    and neither directory is removed. *)
Theorem nested_orphan_dirs_not_empty :
  get_files_in_path Target nested_orphans_state
  = (Ret [(["a"], PyNone); (["b"; "a"], PyNone)], nested_orphans_state) /\
  fst (remove_sweep [] [["a"]; ["b"; "a"]] [] 0 nested_orphans_state) = Ret ([["a"]; ["b"; "a"]], 0) /\
  fst (remove_objects [] [(["a"], PyNone); (["b"; "a"], PyNone)] nested_orphans_state)
  = Raise DirectoryNotEmpty /\
  fst (do_sync_dirs 600 nested_orphans_state) = Raise DirectoryNotEmpty /\
  tgt_fs (snd (do_sync_dirs 600 nested_orphans_state)) = tgt_fs nested_orphans_state.
Proof. vm_compute. repeat split. Qed.

(* ------------------------------------------------------------------ *)
(** ** main *)

Definition count_done (ls : list logline) : nat :=
  List.length (filter (fun l => match snd l with MsgDone => true | _ => false end) ls).

Definition oneshot_args : args := mkArgs true 600 "dirsync.log".

(** The sample tree of the spec's end-to-end scenario. *)
Definition scenario_state : state :=
  mkState [(["a.txt"], NFile (list_byte_of_string "1") Readable);
           (["sub"], NDir);
           (["b.txt"; "sub"], NFile (list_byte_of_string "2") Readable)]
          [(["a.txt"], NFile (list_byte_of_string "0") Readable);
           (["stale.txt"], NFile (list_byte_of_string "9") Readable)]
          true true [] [] [] [].

(** C6 fails as stated: [do_sync_dirs] always ends with [schedule.enter],
    also in one shot mode, so when [main] returns one event is pending in
    the scheduler's queue (it is never run). *)
Lemma oneshot_leaves_event_cex :
  fst (main oneshot_args 3 scenario_state) = Ret tt /\
  queue (snd (main oneshot_args 3 scenario_state)) = [mkEvent 600 1 600] /\
  count_done (logs (snd (main oneshot_args 3 scenario_state))) = 1.
Proof. vm_compute. repeat split. Qed.

Local Close Scope string_scope.

(* ------------------------------------------------------------------ *)
(** ** Frame of the sync operations *)

Definition not_done (l : logline) : bool :=
  match snd l with MsgDone => false | _ => true end.

(** A computation that never touches the source tree, the root flags or
    the scheduler queue, and only appends log lines other than ["Done!"]. *)
Definition tame {A} (m : M A) : Prop :=
  forall st r st', m st = (r, st') ->
    src_fs st' = src_fs st /\ src_exists st' = src_exists st /\
    tgt_exists st' = tgt_exists st /\ queue st' = queue st /\
    exists l, logs st' = logs st ++ l /\ forallb not_done l = true.

Lemma tame_ret {A} (a : A) : tame (ret a).
Proof. intros st r st' H. inversion H; subst. repeat split. exists []. rewrite app_nil_r. auto. Qed.

Lemma tame_raise {A} (e : exc) : tame (@raise A e).
Proof. intros st r st' H. inversion H; subst. repeat split. exists []. rewrite app_nil_r. auto. Qed.

Lemma tame_log lv m : not_done (lv, m) = true -> tame (log lv m).
Proof. intros Hm st r st' H. inversion H; subst. repeat split. exists [(lv, m)]. simpl. rewrite Hm. auto. Qed.

Lemma tame_stat l : tame (stat l).
Proof. intros st r st' H. inversion H; subst. repeat split. exists []. rewrite app_nil_r. auto. Qed.

Lemma tame_bind {A B} (m : M A) (k : A -> M B) :
  tame m -> (forall a, tame (k a)) -> tame (bind m k).
Proof.
  intros Hm Hk st r st' H. unfold bind in H.
  destruct (m st) as [[a|e] s1] eqn:E; apply Hm in E as (E1 & E2 & E3 & E4 & l1 & E5 & E6).
  - apply Hk in H as (F1 & F2 & F3 & F4 & l2 & F5 & F6).
    repeat split; try congruence. exists (l1 ++ l2).
    rewrite F5, E5, app_assoc, forallb_app, E6, F6. auto.
  - inversion H; subst. repeat split; auto. exists l1. auto.
Qed.

Lemma tame_try {A} (m : M A) (h : exc -> option (M A)) :
  tame m -> (forall e k, h e = Some k -> tame k) -> tame (try_except m h).
Proof.
  intros Hm Hh st r st' H. unfold try_except in H.
  destruct (m st) as [[a|e] s1] eqn:E; apply Hm in E as (E1 & E2 & E3 & E4 & l1 & E5 & E6).
  - inversion H; subst. repeat split; auto. exists l1. auto.
  - destruct (h e) as [k|] eqn:Eh.
    + apply (Hh _ _ Eh) in H as (F1 & F2 & F3 & F4 & l2 & F5 & F6).
      repeat split; try congruence. exists (l1 ++ l2).
      rewrite F5, E5, app_assoc, forallb_app, E6, F6. auto.
    + inversion H; subst. repeat split; auto. exists l1. auto.
Qed.

Lemma tame_put_node p n : tame (put_node (Target, p) n).
Proof. intros st r st' H. inversion H; subst. repeat split. exists []. rewrite app_nil_r. auto. Qed.

Lemma tame_del_node p : tame (del_node (Target, p)).
Proof. intros st r st' H. inversion H; subst. repeat split. exists []. rewrite app_nil_r. auto. Qed.

Lemma tame_get_perm l : tame (get_perm l).
Proof. intros st r st' H. inversion H; subst. repeat split. exists []. rewrite app_nil_r. auto. Qed.

Lemma tame_raise_missing {A} l : tame (@raise_missing A l).
Proof. intros st r st' H. inversion H; subst. repeat split. exists []. rewrite app_nil_r. auto. Qed.

Lemma tame_new_node p n : tame (new_node (Target, p) n).
Proof. intros st r st' H. inversion H; subst. repeat split. exists []. rewrite app_nil_r. auto. Qed.

Lemma tame_set_perm p m : tame (set_perm (Target, p) m).
Proof. intros st r st' H. inversion H; subst. repeat split. exists []. rewrite app_nil_r. auto. Qed.

Create HintDb tame.
#[local] Hint Resolve tame_ret tame_raise tame_stat tame_put_node tame_del_node
  tame_get_perm tame_raise_missing tame_new_node tame_set_perm : tame.

Lemma tame_parent_writable l : tame (parent_writable l).
Proof.
  unfold parent_writable. destruct (snd l); [auto with tame|].
  apply tame_bind; [auto with tame|intro; auto with tame].
Qed.
#[local] Hint Resolve tame_parent_writable : tame.

Ltac tame_tac :=
  repeat match goal with
  | |- tame (bind _ _) => apply tame_bind; [|intro]
  | |- tame (try_except _ _) =>
      apply tame_try;
      [| let e := fresh "e" in let k := fresh "k" in let H := fresh "H" in
         intros e k H; destruct e; simpl in H;
         try discriminate; injection H as <-]
  | |- tame (log _ _) => apply tame_log; reflexivity
  | |- tame (match ?x with _ => _ end) => destruct x
  | |- tame (if ?b then _ else _) => destruct b
  | |- tame _ => solve [auto with tame]
  end.

Lemma tame_get_md5 l : tame (get_md5 l).
Proof. unfold get_md5, md5_stream, open_rb. tame_tac. Qed.
#[local] Hint Resolve tame_get_md5 : tame.

Lemma tame_scan_entries es acc : tame (scan_entries Target es acc) /\ tame (scan_entries Source es acc).
Proof.
  revert acc. induction es as [|p es IH]; intros acc; simpl; split; tame_tac;
    apply IH.
Qed.

Lemma tame_get_files_in_path s : tame (get_files_in_path s).
Proof.
  intros st r st' H. unfold get_files_in_path in H.
  destruct s; [eapply (proj2 (tame_scan_entries _ _)) | eapply (proj1 (tame_scan_entries _ _))];
    exact H.
Qed.
#[local] Hint Resolve tame_get_files_in_path : tame.

Lemma tame_os_mknode n p : tame (os_mknode n (Target, p)).
Proof. unfold os_mknode. tame_tac. Qed.
#[local] Hint Resolve tame_os_mknode : tame.

Lemma tame_os_mkdir p : tame (os_mkdir (Target, p)).
Proof. apply tame_os_mknode. Qed.
Lemma tame_mkfifo p : tame (mkfifo (Target, p)).
Proof. apply tame_os_mknode. Qed.
#[local] Hint Resolve tame_os_mkdir tame_mkfifo : tame.

Lemma tame_mkdir_parents p : tame (mkdir_parents Target p).
Proof.
  induction p as [|x par IH]; simpl; unfold os_mkdir, mkdir_exist_ok, is_dir; tame_tac.
Qed.
#[local] Hint Resolve tame_mkdir_parents : tame.

Lemma tame_copy2 src p : tame (copy2 src (Target, p)).
Proof.
  unfold copy2, is_dir. apply tame_bind; [tame_tac|intros d].
  destruct d; simpl; unfold copyfile, copystat, open_wb, open_rb, write_data; tame_tac.
Qed.
#[local] Hint Resolve tame_copy2 : tame.

Lemma tame_copy_step T e n : tame (copy_step T e n).
Proof.
  unfold copy_step, copy_item, copy_verify_file, copystat, is_dir, is_fifo, mkfifo. tame_tac.
Qed.
#[local] Hint Resolve tame_copy_step : tame.

Lemma tame_copy_objects S T : tame (copy_objects S T).
Proof.
  unfold copy_objects. apply tame_bind; [|intro; tame_tac].
  generalize 0. induction S as [|e S IH]; intros n; simpl; tame_tac.
Qed.
#[local] Hint Resolve tame_copy_objects : tame.

Lemma tame_rmdir p : tame (rmdir (Target, p)).
Proof.
  unfold rmdir. tame_tac.
  intros st r st' H. destruct (has_children _ _); [inversion H; subst|apply tame_del_node in H; exact H].
  repeat split. exists []. rewrite app_nil_r. auto.
Qed.
#[local] Hint Resolve tame_rmdir : tame.

Lemma tame_remove_objects S T : tame (remove_objects S T).
Proof.
  unfold remove_objects. apply tame_bind; [|intro; apply tame_bind; [|intro; tame_tac]].
  - generalize (@nil path) 0. generalize (map fst T). intros ks.
    induction ks as [|k ks IH]; intros ds n; simpl; unfold is_dir, unlink; tame_tac.
  - destruct a as [ds n]. simpl. revert n. induction ds as [|d ds IH]; intros n; simpl; tame_tac.
Qed.
#[local] Hint Resolve tame_remove_objects : tame.

Lemma count_done_app l1 l2 : count_done (l1 ++ l2) = count_done l1 + count_done l2.
Proof. unfold count_done. rewrite filter_app, length_app. reflexivity. Qed.

Lemma count_done_none l : forallb not_done l = true -> count_done l = 0.
Proof.
  induction l as [|[lv m] l IH]; simpl; [reflexivity|].
  intros H. apply andb_prop in H as [H1 H2]. unfold count_done in *. simpl.
  destruct m; simpl in H1; try discriminate; apply IH; exact H2.
Qed.

(** What a pass does to the queue and to the count of ["Done!"] lines:
    either it completes, logging ["Done!"] once and entering one event, or
    it raises, having logged no ["Done!"] and entered nothing. *)
Definition pass_shape (i : Z) (m : M sched_event) : Prop :=
  forall st r st', m st = (r, st') ->
    (r = Ret (mkEvent i 1 i) /\ queue st' = queue st ++ [mkEvent i 1 i] /\
     count_done (logs st') = S (count_done (logs st)))
    \/ (exists e, r = Raise e /\ queue st' = queue st /\ count_done (logs st') = count_done (logs st)).

Lemma pass_shape_bind {A} i (m : M A) (k : A -> M sched_event) :
  tame m -> (forall a, pass_shape i (k a)) -> pass_shape i (bind m k).
Proof.
  intros Hm Hk st r st' H. unfold bind in H.
  destruct (m st) as [[a|e] s1] eqn:E; apply Hm in E as (E1 & E2 & E3 & E4 & l1 & E5 & E6).
  - apply Hk in H. rewrite E4, E5, count_done_app, (count_done_none _ E6) in H.
    rewrite Nat.add_0_r in H. exact H.
  - inversion H; subst. right. exists e. split; [reflexivity|]. split; [exact E4|].
    rewrite E5, count_done_app, (count_done_none _ E6). apply Nat.add_0_r.
Qed.

Lemma do_sync_dirs_shape i : pass_shape i (do_sync_dirs i).
Proof.
  unfold do_sync_dirs.
  repeat (apply pass_shape_bind; [solve [tame_tac] | intro]).
  intros st r st' H. inversion H; subst. left. split; [reflexivity|]. split; [reflexivity|].
  simpl. rewrite count_done_app. simpl. unfold count_done at 2. simpl. lia.
Qed.

(** C6, as the code has it: in one shot mode [main] runs exactly one pass
    and never runs the scheduler ([main] does the same whatever number of
    scheduled events the scheduler would run); the pass still enters one
    follow-up event, which is left pending when [main] returns. *)
Theorem oneshot_single_pass (a : args) (fuel : nat) (st st' : state)
  (Hone : arg_oneshot a = true)
  (Hrun : main a fuel st = (Ret tt, st')) :
  main a fuel st = main a 0 st /\
  count_done (logs st') = S (count_done (logs st)) /\
  queue st' = [mkEvent (arg_interval a) 1 (arg_interval a)].
Proof.
  assert (Hsame : main a fuel st = main a 0 st) by (unfold main; rewrite Hone; reflexivity).
  split; [exact Hsame|].
  revert Hrun. unfold main, check_root, bind, log, try_except. rewrite Hone. simpl.
  destruct (src_exists st) eqn:Hs; simpl; [|discriminate].
  destruct (tgt_exists st) eqn:Ht; simpl; [|discriminate].
  destruct (do_sync_dirs _ _) as [r s2] eqn:Hd.
  apply do_sync_dirs_shape in Hd as [(-> & Hq & Hc)|(e & -> & Hq & Hc)].
  - intros H. inversion H; subst. simpl in Hq. split; [|exact Hq].
    rewrite Hc. simpl. rewrite !count_done_app. simpl. unfold count_done at 2 3 4 5 6 7.
    simpl. lia.
  - unfold on_keyboard_interrupt. destruct e; discriminate.
Qed.

Lemma oneshot_single_pass_witness :
  arg_oneshot oneshot_args = true /\
  main oneshot_args 3 scenario_state = (Ret tt, snd (main oneshot_args 3 scenario_state)) /\
  queue (snd (main oneshot_args 3 scenario_state)) = [mkEvent 600 1 600].
Proof.
  split; [reflexivity|]. split; [vm_compute; reflexivity|].
  exact (proj2 (proj2 (oneshot_single_pass oneshot_args 3 scenario_state _ eq_refl
                                           (ltac:(vm_compute; reflexivity))))).
Defined.

(** The six lines [main] logs before it validates the roots. *)
Definition startup_log (a : args) : list logline :=
  [(INFO, MsgStartup); (INFO, MsgLoggerInit); (INFO, MsgUsingLogFile (arg_logfile a));
   (INFO, if arg_oneshot a then MsgOneShot else MsgInterval (arg_interval a));
   (INFO, MsgSourcePath); (INFO, MsgTargetPath)].


Definition no_target_state : state :=
  mkState [(["f"%string], NFile [x31] Readable)] [] true false [] [] [] [].


(* ------------------------------------------------------------------ *)
(** ** The copy decision *)

(** C5: a source entry whose path is a key of the target snapshot and whose
    value is among the snapshot's values is skipped: the copy phase does
    nothing for it, whatever the target holds at that very path. *)
Theorem content_based_skip (T : pydict) (p : path) (v : md5val) (n : nat) (st : state)
  (Hk : in_keys p T = true) (Hv : in_values v T = true) :
  copy_step T (p, v) n st = (Ret n, st).
Proof.
  unfold copy_step, should_copy. simpl. rewrite Hk, Hv. simpl.
  rewrite andb_false_r. reflexivity.
Qed.

(** The source [a] holds ["1"]; the target's [a] holds ["0"] and its [b]
    holds ["1"]. *)
Definition foreign_match_state : state :=
  mkState [(["a"%string], NFile [x31] Readable)]
          [(["a"%string], NFile [x30] Readable); (["b"%string], NFile [x31] Readable)]
          true true [] [] [] [].

Definition foreign_T : pydict :=
  [(["a"%string], PyHex (MD5.hexdigest [x30])); (["b"%string], PyHex (MD5.hexdigest [x31]))].

Lemma content_based_skip_witness :
  fst (get_files_in_path Source foreign_match_state)
    = Ret [(["a"%string], PyHex (MD5.hexdigest [x31]))] /\
  fst (get_files_in_path Target foreign_match_state) = Ret foreign_T /\
  MD5.hexdigest [x30] <> MD5.hexdigest [x31] /\
  in_keys ["a"%string] foreign_T = true /\
  in_values (PyHex (MD5.hexdigest [x31])) foreign_T = true /\
  copy_step foreign_T (["a"%string], PyHex (MD5.hexdigest [x31])) 0 foreign_match_state
    = (Ret 0, foreign_match_state).
Proof.
  split; [vm_compute; reflexivity|]. split; [vm_compute; reflexivity|].
  split; [vm_compute; discriminate|].
  split; [vm_compute; reflexivity|]. split; [vm_compute; reflexivity|].
  apply content_based_skip; vm_compute; reflexivity.
Defined.

(** A computation that either raises or logs at least one line. *)
Definition acts {A} (m : M A) : Prop :=
  forall st r st', m st = (r, st') ->
    (exists e, r = Raise e) \/ List.length (logs st) < List.length (logs st').

Lemma acts_bind_tame {A B} (m : M A) (k : A -> M B) :
  tame m -> (forall a, acts (k a)) -> acts (bind m k).
Proof.
  intros Hm Hk st r st' H. unfold bind in H.
  destruct (m st) as [[a|e] s1] eqn:E; apply Hm in E as (_ & _ & _ & _ & l1 & E5 & _).
  - apply Hk in H as [H|H]; [left; exact H|right].
    rewrite E5, length_app in H. lia.
  - inversion H; subst. left. exists e. reflexivity.
Qed.

Lemma acts_log {B} lv m (k : unit -> M B) :
  (forall a, tame (k a)) -> acts (bind (log lv m) k).
Proof.
  intros Hk st r st' H. unfold bind, log in H.
  apply Hk in H as (_ & _ & _ & _ & l & E & _). right.
  rewrite E, length_app. simpl. rewrite length_app. simpl. lia.
Qed.

Lemma acts_try {A} (m : M A) (h : exc -> option (M A)) :
  tame m -> acts m -> (forall e k, h e = Some k -> acts k) -> acts (try_except m h).
Proof.
  intros Ht Ha Hh st r st' H. unfold try_except in H.
  destruct (m st) as [[a|e] s1] eqn:E.
  - inversion H; subst. exact (Ha _ _ _ E).
  - apply Ht in E as (_ & _ & _ & _ & l1 & E5 & _).
    destruct (h e) as [k|] eqn:Eh.
    + apply (Hh _ _ Eh) in H as [H|H]; [left; exact H|right].
      rewrite E5, length_app in H. lia.
    + inversion H; subst. left. exists e. reflexivity.
Qed.

Ltac acts_tac :=
  repeat match goal with
  | |- acts (bind (log _ _) _) => apply acts_log; intro; tame_tac
  | |- acts (bind _ _) => apply acts_bind_tame; [solve [tame_tac]|intro]
  | |- acts (try_except _ _) =>
      apply acts_try;
      [solve [tame_tac] | |
       let e := fresh "e" in let k := fresh "k" in let H := fresh "H" in
       intros e k H; destruct e; simpl in H; try discriminate; injection H as <-]
  | |- acts (if ?b then _ else _) => destruct b
  end.

(** Every branch of the copy action either raises or logs. *)
Lemma acts_copy_item p n : acts (copy_item p n).
Proof.
  unfold copy_item, copy_verify_file, copystat, is_dir, is_fifo, mkfifo. acts_tac.
Qed.

(** What [scan_entries] computes, entry by entry: a regular file gets its
    [get_md5] value (a digest of its content when it is readable, never
    [None]); a directory or a named pipe gets [None]; other paths are
    skipped. *)
Inductive scan_rel (fs : fsys) : list path -> pydict -> pydict -> Prop :=
| scan_nil acc : scan_rel fs [] acc acc
| scan_file p es acc S c a w :
    node_at fs p = Some (NFile c a) -> w <> PyNone ->
    (a = Readable -> w = PyHex (MD5.hexdigest c)) ->
    scan_rel fs es (dict_set acc p w) S -> scan_rel fs (p :: es) acc S
| scan_dir p es acc S n :
    node_at fs p = Some n -> n = NDir \/ n = NFifo ->
    scan_rel fs es (dict_set acc p PyNone) S -> scan_rel fs (p :: es) acc S
| scan_skip p es acc S :
    node_at fs p = None \/ node_at fs p = Some NOther ->
    scan_rel fs es acc S -> scan_rel fs (p :: es) acc S.

Lemma scan_entries_rel s es acc st :
  exists S st', scan_entries s es acc st = (Ret S, st') /\
    fs_of st' s = fs_of st s /\ scan_rel (fs_of st s) es acc S.
Proof.
  revert acc st. induction es as [|p es IH]; intros acc st.
  - exists acc, st. repeat split. constructor.
  - simpl. unfold bind at 1, stat. simpl.
    destruct (node_at (fs_of st s) p) as [n|] eqn:En.
    + destruct n as [c a| | |].
      * destruct (get_md5_total (s, p) st) as (w & s1 & Hw).
        unfold bind. rewrite Hw.
        destruct (IH (dict_set acc p w) s1) as (S & st' & E1 & E2 & E3).
        assert (Hs1 : fs_of s1 s = fs_of st s).
        { apply only_logs_get_md5 in Hw as [l ->]. destruct s; reflexivity. }
        exists S, st'. split; [exact E1|]. split; [congruence|].
        rewrite Hs1 in E3. eapply scan_file; [exact En| | |exact E3].
        -- apply get_md5_value in Hw as [[-> _]|(h & -> & _)]; discriminate.
        -- intros ->. rewrite (get_md5_readable st s p c En) in Hw. congruence.
      * destruct (IH (dict_set acc p PyNone) st) as (S & st' & E1 & E2 & E3).
        exists S, st'. repeat split; auto. eapply scan_dir; eauto.
      * destruct (IH (dict_set acc p PyNone) st) as (S & st' & E1 & E2 & E3).
        exists S, st'. repeat split; auto. eapply scan_dir; eauto.
      * destruct (IH acc st) as (S & st' & E1 & E2 & E3).
        exists S, st'. repeat split; auto. apply scan_skip; auto.
    + destruct (IH acc st) as (S & st' & E1 & E2 & E3).
      exists S, st'. repeat split; auto. apply scan_skip; auto.
Qed.

Lemma in_dict_set acc p w q v :
  In (q, v) (dict_set acc p w) -> In (q, v) acc \/ (q = p /\ v = w).
Proof.
  induction acc as [|[k x] acc IH]; simpl.
  - intros [H|[]]. inversion H; subst. right. auto.
  - unfold path_eqb. destruct (list_eq_dec string_dec k p) as [->|Hne].
    + intros [H|H]; [inversion H; subst; right; auto | left; right; exact H].
    + intros [H|H]; [left; left; exact H|]. apply IH in H as [H|H]; [left; right|right]; auto.
Qed.

(** The value a snapshot holds for a path, against the node there. *)
Definition val_ok (fs : fsys) (p : path) (w : md5val) : Prop :=
  match node_at fs p with
  | Some (NFile c a) => w <> PyNone /\ (a = Readable -> w = PyHex (MD5.hexdigest c))
  | Some NDir | Some NFifo => w = PyNone
  | _ => False
  end.

Lemma scan_rel_vals fs es acc S :
  scan_rel fs es acc S ->
  (forall q v, In (q, v) acc -> val_ok fs q v) -> forall q v, In (q, v) S -> val_ok fs q v.
Proof.
  induction 1 as [acc|p es acc S c a w En Hw Hr _ IH|p es acc S n En Hn _ IH|p es acc S _ _ IH];
    intros Hacc; auto.
  - apply IH. intros q v Hq. apply in_dict_set in Hq as [Hq|[-> ->]]; auto.
    unfold val_ok. rewrite En. auto.
  - apply IH. intros q v Hq. apply in_dict_set in Hq as [Hq|[-> ->]]; auto.
    unfold val_ok. rewrite En. destruct Hn as [->| ->]; reflexivity.
Qed.

Lemma get_files_in_path_vals s st S st' q v :
  get_files_in_path s st = (Ret S, st') -> In (q, v) S -> val_ok (fs_of st s) q v.
Proof.
  intros H. unfold get_files_in_path in H.
  destruct (scan_entries_rel s (glob_all (fs_of st s) (perm_of st s)) [] st) as (S' & st'' & E1 & _ & E3).
  rewrite E1 in H. inversion H; subst.
  apply (scan_rel_vals _ _ _ _ E3). intros ? ? [].
Qed.

Definition is_file_node (n : option node) : bool :=
  match n with Some (NFile _ _) => true | _ => false end.

(** C1: for an entry [(p, v)] of the source snapshot, the copy phase acts
    on it (runs the create or copy action, which always logs its outcome
    or raises) exactly when [p] is not a key of the target snapshot, or
    [p] is a regular file and [v] is not among the target snapshot's
    values; otherwise it leaves everything as it is. *)
Theorem copy_decision_rule (st st1 : state) (S T : pydict) (p : path) (v : md5val) (n : nat)
  (Hscan : get_files_in_path Source st = (Ret S, st1)) (Hin : In (p, v) S) :
  let decide := negb (in_keys p T)
                || (is_file_node (node_at (src_fs st) p) && negb (in_values v T)) in
  (decide = true -> copy_step T (p, v) n = copy_item p n /\ acts (copy_item p n)) /\
  (decide = false -> forall st0, copy_step T (p, v) n st0 = (Ret n, st0)).
Proof.
  pose proof (get_files_in_path_vals _ _ _ _ _ _ Hscan Hin) as Hv. simpl in Hv.
  assert (Hf : negb (md5val_eqb v PyNone) = is_file_node (node_at (src_fs st) p)).
  { unfold val_ok in Hv. destruct (node_at (src_fs st) p) as [[c a| | |]|]; simpl.
    - destruct Hv as [Hv _]. destruct v; simpl; congruence.
    - subst. reflexivity.
    - subst. reflexivity.
    - contradiction.
    - contradiction. }
  intros decide. unfold copy_step, should_copy. simpl. rewrite Hf. fold decide.
  split.
  - intros ->. split; [reflexivity|apply acts_copy_item].
  - intros -> st0. reflexivity.
Qed.

Lemma copy_decision_rule_witness :
  get_files_in_path Source foreign_match_state
    = (Ret [(["a"%string], PyHex (MD5.hexdigest [x31]))], foreign_match_state) /\
  copy_step [] (["a"%string], PyHex (MD5.hexdigest [x31])) 0
    = copy_item ["a"%string] 0.
Proof.
  assert (H : get_files_in_path Source foreign_match_state
              = (Ret [(["a"%string], PyHex (MD5.hexdigest [x31]))], foreign_match_state))
    by (vm_compute; reflexivity).
  split; [exact H|].
  exact (proj1 (proj1 (copy_decision_rule foreign_match_state foreign_match_state _ []
                         ["a"%string] _ 0 H (or_introl eq_refl)) eq_refl)).
Defined.

(* ------------------------------------------------------------------ *)
(** ** Trees, listings and snapshots *)

(** A well-formed tree: no path twice, no entry for the root, and the
    parent of every entry is a directory. *)
Definition wf_prop (fs : fsys) : Prop :=
  NoDup (map fst fs) /\
  forall e, In e fs -> fst e <> [] /\ node_at fs (tl (fst e)) = Some NDir.

(** The nodes a snapshot lists: regular files, directories, named pipes. *)
Definition listed (n : option node) : bool :=
  match n with Some (NFile _ _) | Some NDir | Some NFifo => true | _ => false end.

(** Every path of [l] has its parent in [seen] or earlier in [l]. *)
Definition parents_first (seen l : list path) : Prop :=
  forall l1 p l2, l = l1 ++ p :: l2 -> In (tl p) (seen ++ l1).

Fixpoint suffixes (p : path) : list path :=
  match p with [] => [] | _ :: t => p :: suffixes t end.

Lemma path_eqb_eq p q : path_eqb p q = true <-> p = q.
Proof. unfold path_eqb. destruct (list_eq_dec string_dec p q); split; congruence. Qed.

Lemma path_eqb_neq p q : path_eqb p q = false <-> p <> q.
Proof. unfold path_eqb. destruct (list_eq_dec string_dec p q); split; congruence. Qed.

Lemma path_eqb_refl p : path_eqb p p = true.
Proof. apply path_eqb_eq. reflexivity. Qed.

Lemma path_eqb_sym p q : path_eqb p q = path_eqb q p.
Proof.
  destruct (path_eqb q p) eqn:E.
  - apply path_eqb_eq in E. subst. apply path_eqb_refl.
  - apply path_eqb_neq in E. apply path_eqb_neq. congruence.
Qed.

Lemma tl_neq (p : path) : p <> [] -> tl p <> p.
Proof. destruct p as [|x t]; simpl; [congruence|]. intros _ H. apply (f_equal (@List.length _)) in H. simpl in H. lia. Qed.

Lemma fs_lookup_In fs p x : fs_lookup fs p = Some x -> In (p, x) fs.
Proof.
  induction fs as [|[q y] fs IH]; simpl; [discriminate|].
  destruct (path_eqb q p) eqn:E; [apply path_eqb_eq in E; subst; intros H; inversion H; subst; left; reflexivity|].
  intros H. right. auto.
Qed.

Lemma In_fs_lookup fs p x : NoDup (map fst fs) -> In (p, x) fs -> fs_lookup fs p = Some x.
Proof.
  induction fs as [|[q y] fs IH]; simpl; [intros _ []|].
  intros Hnd. inversion Hnd as [|? ? Hq Hnd']; subst.
  destruct (path_eqb q p) eqn:E.
  - apply path_eqb_eq in E. subst. intros [H|H]; [inversion H; reflexivity|].
    exfalso. apply Hq. apply (in_map fst) in H. exact H.
  - apply path_eqb_neq in E. intros [H|H]; [inversion H; congruence|]. auto.
Qed.

Lemma fs_lookup_None fs p : fs_lookup fs p = None <-> ~ In p (map fst fs).
Proof.
  induction fs as [|[q y] fs IH]; simpl; [tauto|].
  destruct (path_eqb q p) eqn:E.
  - apply path_eqb_eq in E. subst. split; [discriminate|]. intros H. exfalso. auto.
  - apply path_eqb_neq in E. rewrite IH. intuition.
Qed.

Lemma fs_lookup_replace fs p n q :
  fs_lookup (map (fun e => if path_eqb (fst e) p then (p, n) else e) fs) q
  = if path_eqb p q then match fs_lookup fs p with Some _ => Some n | None => None end
    else fs_lookup fs q.
Proof.
  induction fs as [|[k z] fs IH]; simpl.
  - destruct (path_eqb p q); reflexivity.
  - destruct (path_eqb k p) eqn:Ek; simpl.
    + apply path_eqb_eq in Ek. subst. simpl.
      destruct (path_eqb p q) eqn:E; [reflexivity|]. rewrite IH; rewrite ?E; reflexivity.
    + rewrite IH. destruct (path_eqb k q) eqn:Ekq, (path_eqb p q) eqn:Epq; try reflexivity.
      apply path_eqb_eq in Ekq. apply path_eqb_eq in Epq. subst.
      rewrite path_eqb_refl in Ek. discriminate.
Qed.

Lemma fs_lookup_put fs p n q :
  fs_lookup (fs_put fs p n) q = if path_eqb p q then Some n else fs_lookup fs q.
Proof.
  unfold fs_put. destruct (fs_lookup fs p) as [y|] eqn:Ep.
  - rewrite fs_lookup_replace, Ep. reflexivity.
  - induction fs as [|[k z] fs IH]; simpl in *.
    + rewrite path_eqb_sym. destruct (path_eqb p q); reflexivity.
    + destruct (path_eqb k p) eqn:Ek; [discriminate|].
      destruct (path_eqb k q) eqn:Ekq; [|apply IH; exact Ep].
      apply path_eqb_eq in Ekq. subst. destruct (path_eqb p q) eqn:E; [|reflexivity].
      apply path_eqb_eq in E. subst. rewrite path_eqb_refl in Ek. discriminate.
Qed.

Lemma node_at_put fs p n q : p <> [] ->
  node_at (fs_put fs p n) q = if path_eqb p q then Some n else node_at fs q.
Proof.
  intros Hp. destruct q as [|x q]; simpl.
  - destruct (path_eqb p []) eqn:E; [apply path_eqb_eq in E; congruence|reflexivity].
  - apply fs_lookup_put.
Qed.

Lemma fs_lookup_remove fs p q :
  fs_lookup (fs_remove fs p) q = if path_eqb p q then None else fs_lookup fs q.
Proof.
  unfold fs_remove. induction fs as [|[k z] fs IH]; simpl.
  - destruct (path_eqb p q); reflexivity.
  - destruct (path_eqb k p) eqn:Ek; simpl.
    + apply path_eqb_eq in Ek. subst. rewrite IH. rewrite path_eqb_sym.
      destruct (path_eqb q p); reflexivity.
    + rewrite IH. destruct (path_eqb k q) eqn:Ekq; [|reflexivity].
      apply path_eqb_eq in Ekq. subst. rewrite path_eqb_sym, Ek. reflexivity.
Qed.

Lemma node_at_remove fs p q : p <> [] ->
  node_at (fs_remove fs p) q = if path_eqb p q then None else node_at fs q.
Proof.
  intros Hp. destruct q as [|x q]; simpl.
  - destruct (path_eqb p []) eqn:E; [apply path_eqb_eq in E; congruence|reflexivity].
  - apply fs_lookup_remove.
Qed.

Lemma node_at_In fs p x : p <> [] -> node_at fs p = Some x -> In (p, x) fs.
Proof. destruct p; [congruence|]. intros _. apply fs_lookup_In. Qed.

Lemma In_node_at fs p x : wf_prop fs -> In (p, x) fs -> node_at fs p = Some x.
Proof.
  intros [Hnd Hp] H. destruct (Hp _ H) as [Hne _]. simpl in Hne.
  destruct p; [congruence|]. apply In_fs_lookup; assumption.
Qed.

Lemma glob_from_sub n fs t d e : In e (glob_from n fs t d) -> In e fs.
Proof.
  revert d. induction n as [|n IH]; simpl; intros d; [intros []|].
  destruct (pm_read (perm_at t d)); [|intros []].
  rewrite in_app_iff, in_flat_map. intros [H|(e' & _ & H)].
  - unfold children in H. apply filter_In in H. apply H.
  - destruct (is_dir_node (snd e')); [eapply IH; exact H|destruct H].
Qed.

Lemma glob_all_sub fs t p : In p (glob_all fs t) -> In p (map fst fs).
Proof.
  unfold glob_all. rewrite !in_map_iff. intros (e & <- & H).
  exists e. split; [reflexivity|]. eapply glob_from_sub. exact H.
Qed.

(** Every directory of a tree may be listed. *)
Definition listable (t : perms) : Prop := forall q, pm_read (perm_at t q) = true.

(** A permission table in which every entry has the permissions of a new
    entry: the user owns, reads and writes everything in the tree. *)
Definition perms_default (t : perms) : Prop := forall q, perm_at t q = default_perm.

Lemma perm_lookup_drop t p q :
  perm_lookup (perm_drop t p) q = if path_eqb p q then None else perm_lookup t q.
Proof.
  unfold perm_drop. induction t as [|[k m] t IH]; simpl.
  - destruct (path_eqb p q); reflexivity.
  - destruct (path_eqb k p) eqn:Ek; simpl.
    + apply path_eqb_eq in Ek. subst k. rewrite IH. destruct (path_eqb p q); reflexivity.
    + rewrite IH. destruct (path_eqb k q) eqn:Eq; [|reflexivity].
      apply path_eqb_eq in Eq. subst q. apply path_eqb_neq in Ek.
      replace (path_eqb p k) with false; [reflexivity|symmetry; apply path_eqb_neq; congruence].
Qed.

Lemma perms_default_drop t p : perms_default t -> perms_default (perm_drop t p).
Proof.
  intros H q. generalize (H q). unfold perm_at. rewrite perm_lookup_drop.
  destruct (path_eqb p q); auto.
Qed.

Lemma perms_default_set t p : perms_default t -> perms_default (perm_set t p default_perm).
Proof.
  intros H q. unfold perm_at, perm_set. simpl.
  destruct (path_eqb p q); [reflexivity|]. apply (perms_default_drop t p H q).
Qed.

Lemma perms_default_listable t : perms_default t -> listable t.
Proof. intros H q. rewrite H. reflexivity. Qed.

Lemma perms_default_nil : perms_default [].
Proof. intros q. reflexivity. Qed.

Lemma glob_from_complete fs t (Ht : listable t) n : forall d r p x,
  In (p, x) fs -> p = r ++ d -> r <> [] -> List.length r <= n ->
  (forall r1 r2, r = r1 ++ r2 -> r1 <> [] -> r2 <> [] -> In (r2 ++ d, NDir) fs) ->
  In (p, x) (glob_from n fs t d).
Proof.
  induction n as [|n IH]; intros d r p x Hin Hp Hr Hlen Hanc.
  - destruct r; [congruence|simpl in Hlen; lia].
  - simpl. rewrite Ht. apply in_app_iff.
    destruct (exists_last Hr) as (r1 & y & ->).
    destruct r1 as [|z r1].
    + left. unfold children. apply filter_In. split; [exact Hin|].
      subst p. simpl. apply path_eqb_refl.
    + right. apply in_flat_map. exists (y :: d, NDir). split.
      * unfold children. apply filter_In. split.
        -- specialize (Hanc (z :: r1) [y] eq_refl ltac:(congruence) ltac:(congruence)). exact Hanc.
        -- simpl. apply path_eqb_refl.
      * simpl. apply (IH _ (z :: r1)); auto.
        -- subst p. rewrite <- app_assoc. reflexivity.
        -- congruence.
        -- rewrite length_app in Hlen. simpl in *. lia.
        -- intros a b Hab Ha Hb. rewrite Hab in Hanc.
           specialize (Hanc a (b ++ [y])). rewrite <- app_assoc in Hanc.
           specialize (Hanc eq_refl Ha ltac:(destruct b; simpl; congruence)).
           rewrite <- app_assoc in Hanc. exact Hanc.
Qed.

Lemma wf_ancestors fs (Hwf : wf_prop fs) : forall r1 r2 x,
  In (r1 ++ r2, x) fs -> r1 <> [] -> r2 <> [] -> In (r2, NDir) fs.
Proof.
  intros r1. induction r1 as [|a r1 IH]; intros r2 x Hin H1 H2; [congruence|].
  destruct (proj2 Hwf _ Hin) as [_ Hpar]. simpl in Hpar.
  destruct r1 as [|b r1].
  - simpl in Hpar. apply node_at_In in Hpar; auto.
  - apply (IH r2 NDir); [|congruence|exact H2].
    apply node_at_In in Hpar; [exact Hpar|]. simpl. congruence.
Qed.

Lemma suffixes_length p : List.length (suffixes p) = List.length p.
Proof. induction p; simpl; auto. Qed.

Lemma suffixes_In p q : In q (suffixes p) -> q <> [] /\ exists r, p = r ++ q.
Proof.
  induction p as [|a p IH]; simpl; [intros []|].
  intros [<-|H]; [split; [congruence|exists []; reflexivity]|].
  apply IH in H as [Hq [r ->]]. split; [exact Hq|]. exists (a :: r). reflexivity.
Qed.

Lemma suffixes_NoDup p : NoDup (suffixes p).
Proof.
  induction p as [|a p IH]; simpl; constructor; auto.
  intros H. apply suffixes_In in H as [_ [r Hr]].
  apply (f_equal (@List.length _)) in Hr. rewrite length_app in Hr. simpl in Hr. lia.
Qed.

Lemma glob_complete fs t p x : listable t -> wf_prop fs -> In (p, x) fs -> In p (glob_all fs t).
Proof.
  intros Ht Hwf Hin. destruct (proj2 Hwf _ Hin) as [Hne _]. simpl in Hne.
  unfold glob_all. apply in_map_iff. exists (p, x). split; [reflexivity|].
  apply (glob_from_complete fs t Ht _ [] p); auto.
  - rewrite app_nil_r. reflexivity.
  - assert (Hinc : incl (suffixes p) (map fst fs)).
    { intros q Hq. apply suffixes_In in Hq as [Hq [r Hr]].
      destruct r as [|a r].
      - simpl in Hr. subst. apply (in_map fst) in Hin. exact Hin.
      - subst p. apply (in_map fst fs (q, NDir)).
        apply (wf_ancestors fs Hwf (a :: r) q x); auto; congruence. }
    pose proof (NoDup_incl_length (suffixes_NoDup p) Hinc) as Hl.
    rewrite suffixes_length, length_map in Hl. lia.
  - intros r1 r2 -> H1 H2. rewrite app_nil_r. eapply wf_ancestors; eauto.
Qed.

Lemma pf_app seen l1 l2 :
  parents_first seen l1 -> parents_first (seen ++ l1) l2 -> parents_first seen (l1 ++ l2).
Proof.
  intros H1 H2 a p b Heq. apply app_eq_app in Heq as [l' [[-> Hb]|[-> Hb]]].
  - destruct l' as [|y l'].
    + simpl in Hb. subst l2. specialize (H2 [] p b eq_refl). rewrite !app_nil_r in *. exact H2.
    + simpl in Hb. injection Hb as Hy _. subst y. apply (H1 a p l'). reflexivity.
  - rewrite app_assoc. apply (H2 l' p b Hb).
Qed.

Lemma pf_mono seen seen' l : incl seen seen' -> parents_first seen l -> parents_first seen' l.
Proof.
  intros Hi H a p b Heq. specialize (H a p b Heq). apply in_app_iff in H as [H|H];
    apply in_app_iff; [left; apply Hi|right]; exact H.
Qed.

Lemma pf_all seen l : (forall q, In q l -> In (tl q) seen) -> parents_first seen l.
Proof.
  intros H a p b Heq. apply in_app_iff. left. apply H. rewrite Heq. apply in_app_iff. right. left. reflexivity.
Qed.

Lemma glob_from_pf fs t n : forall d seen, In d seen -> parents_first seen (map fst (glob_from n fs t d)).
Proof.
  induction n as [|n IH]; intros d seen Hd; simpl.
  - intros a p b Heq. destruct a; discriminate.
  - destruct (pm_read (perm_at t d)); [|intros a p b Heq; destruct a; discriminate].
    rewrite map_app. apply pf_app.
    + apply pf_all. intros q Hq. apply in_map_iff in Hq as (e & <- & He).
      unfold children in He. apply filter_In in He as [_ He].
      destruct e as [[|y q] z]; simpl in *; [discriminate|]. apply path_eqb_eq in He. subst. exact Hd.
    + assert (Hcs : forall e, In e (children fs d) -> In (fst e) (seen ++ map fst (children fs d)))
        by (intros e He; apply in_app_iff; right; apply in_map; exact He).
      revert Hcs. generalize (seen ++ map fst (children fs d)) as seen'.
      generalize (children fs d) as ys.
      intros ys. induction ys as [|y ys IHy]; intros seen' Hys; simpl.
      * intros a p b Heq. destruct a; discriminate.
      * rewrite map_app. apply pf_app.
        -- destruct (is_dir_node (snd y)); [apply IH; apply Hys; left; reflexivity|].
           intros a p b Heq. destruct a; discriminate.
        -- apply IHy. intros e He. apply in_app_iff. left. apply Hys. right. exact He.
Qed.

Lemma glob_all_pf fs t : parents_first [[]] (glob_all fs t).
Proof. apply glob_from_pf. left. reflexivity. Qed.

Lemma keys_dict_set_in acc p w :
  In p (map fst acc) -> map fst (dict_set acc p w) = map fst acc.
Proof.
  induction acc as [|[k v] acc IH]; simpl; [intros []|].
  destruct (path_eqb k p) eqn:E; simpl; [reflexivity|].
  apply path_eqb_neq in E. intros [H|H]; [congruence|]. rewrite IH; auto.
Qed.

Lemma keys_dict_set_notin acc p w :
  ~ In p (map fst acc) -> map fst (dict_set acc p w) = map fst acc ++ [p].
Proof.
  induction acc as [|[k v] acc IH]; simpl; [reflexivity|].
  intros H. destruct (path_eqb k p) eqn:E.
  - apply path_eqb_eq in E. exfalso. auto.
  - simpl. rewrite IH; auto.
Qed.

Lemma keys_dict_set_In acc p w q :
  In q (map fst (dict_set acc p w)) <-> In q (map fst acc) \/ q = p.
Proof.
  destruct (in_dec (list_eq_dec string_dec) p (map fst acc)) as [H|H].
  - rewrite keys_dict_set_in; auto. split; [auto|intros [H'| ->]; auto].
  - rewrite keys_dict_set_notin; auto. rewrite in_app_iff. simpl. intuition.
Qed.

Lemma NoDup_dict_set acc p w : NoDup (map fst acc) -> NoDup (map fst (dict_set acc p w)).
Proof.
  intros Hnd. destruct (in_dec (list_eq_dec string_dec) p (map fst acc)) as [H|H].
  - rewrite keys_dict_set_in; auto.
  - rewrite keys_dict_set_notin; auto. apply NoDup_app; auto.
    + repeat constructor. intros [].
    + intros x Hx [<-|[]]. auto.
Qed.

Lemma scan_rel_nodup fs es acc S :
  scan_rel fs es acc S -> NoDup (map fst acc) -> NoDup (map fst S).
Proof. induction 1; intros; auto using NoDup_dict_set. Qed.

Lemma scan_rel_keys fs es acc S : scan_rel fs es acc S ->
  forall q, In q (map fst S) <-> In q (map fst acc) \/ (In q es /\ listed (node_at fs q) = true).
Proof.
  induction 1 as [acc|p es acc S c a w En _ _ _ IH|p es acc S n En Hn _ IH|p es acc S Hs _ IH];
    intros q.
  - simpl. tauto.
  - rewrite IH, keys_dict_set_In. simpl. split.
    + intros [[H| ->]|H]; [left; exact H|right; split; [left; reflexivity|rewrite En; reflexivity]|].
      right. split; [right|]; apply H.
    + intros [H|[[<-|H] Hl]]; [left; left; exact H|left; right; reflexivity|right; split; auto].
  - rewrite IH, keys_dict_set_In. simpl. split.
    + intros [[H| ->]|H]; [left; exact H|right; split; [left; reflexivity|rewrite En]|].
      * destruct Hn as [-> | ->]; reflexivity.
      * right. split; [right|]; apply H.
    + intros [H|[[<-|H] Hl]]; [left; left; exact H|left; right; reflexivity|right; split; auto].
  - rewrite IH. simpl. split.
    + intros [H|H]; [left; exact H|right; split; [right|]; apply H].
    + intros [H|[[<-|H] Hl]]; [left; exact H| |right; split; auto].
      destruct Hs as [Hs|Hs]; rewrite Hs in Hl; discriminate.
Qed.

Lemma pf_dict_set acc p w es :
  parents_first [[]] (map fst acc) -> parents_first ([[]] ++ map fst acc) (p :: es) ->
  parents_first [[]] (map fst (dict_set acc p w)) /\
  parents_first ([[]] ++ map fst (dict_set acc p w)) es.
Proof.
  intros Hacc Hes. split.
  - destruct (in_dec (list_eq_dec string_dec) p (map fst acc)) as [Hin|Hin].
    + rewrite keys_dict_set_in; auto.
    + rewrite keys_dict_set_notin; auto. apply pf_app; [exact Hacc|].
      intros a' q b' Heq. destruct a' as [|? [|? ?]]; inversion Heq; subst.
      exact (Hes [] q es eq_refl).
  - intros l1 q l2 Heq. specialize (Hes (p :: l1) q l2 ltac:(rewrite Heq; reflexivity)).
    rewrite !in_app_iff in *. simpl in *.
    destruct Hes as [[[Hq|[]]|Hq]|[Hq|Hq]].
    + left. left. left. exact Hq.
    + left. right. apply keys_dict_set_In. left. exact Hq.
    + left. right. apply keys_dict_set_In. right. symmetry. exact Hq.
    + right. exact Hq.
Qed.

Lemma scan_rel_pf fs es acc S : scan_rel fs es acc S ->
  parents_first [[]] (map fst acc) -> parents_first ([[]] ++ map fst acc) es ->
  (forall q, In q es -> node_at fs (tl q) = Some NDir) ->
  parents_first [[]] (map fst S).
Proof.
  induction 1 as [acc|p es acc S c a w En _ _ _ IH|p es acc S n En Hn _ IH|p es acc S Hs _ IH];
    intros Hacc Hes Hdir; auto.
  - destruct (pf_dict_set acc p w es Hacc Hes). apply IH; auto.
    intros q Hq. apply Hdir. right. exact Hq.
  - destruct (pf_dict_set acc p PyNone es Hacc Hes). apply IH; auto.
    intros q Hq. apply Hdir. right. exact Hq.
  - apply IH; auto.
    + intros l1 q l2 Heq. specialize (Hes (p :: l1) q l2 ltac:(rewrite Heq; reflexivity)).
      rewrite !in_app_iff in *. simpl in *.
      destruct Hes as [[[Hq|[]]|Hq]|[Hq|Hq]]; auto.
      exfalso. subst p.
      specialize (Hdir q ltac:(right; rewrite Heq; apply in_app_iff; right; left; reflexivity)).
      destruct Hs as [Hs|Hs]; rewrite Hs in Hdir; discriminate.
    + intros q Hq. apply Hdir. right. exact Hq.
Qed.

(** Every regular file of the tree can be read to its end. *)
Definition readable_prop (fs : fsys) : Prop :=
  forall p c a, node_at fs p = Some (NFile c a) -> a = Readable.

(** What a snapshot of a tree holds: each listed path once, parents
    before children, with the value [val_ok] gives it. *)
Definition snapshot (fs : fsys) (S : pydict) : Prop :=
  NoDup (map fst S) /\ (forall q v, In (q, v) S -> val_ok fs q v) /\
  (forall q, In q (map fst S) <-> q <> [] /\ listed (node_at fs q) = true) /\
  parents_first [[]] (map fst S).

Lemma scan_entries_quiet s es acc st : readable_prop (fs_of st s) ->
  exists S, scan_entries s es acc st = (Ret S, st) /\ scan_rel (fs_of st s) es acc S.
Proof.
  intros Hrd. revert acc. induction es as [|p es IH]; intros acc.
  - exists acc. split; [reflexivity|constructor].
  - simpl. unfold bind at 1, stat. simpl.
    destruct (node_at (fs_of st s) p) as [n|] eqn:En.
    + destruct n as [c a| | |].
      * pose proof (Hrd _ _ _ En) as ->. unfold bind. rewrite (get_md5_readable st s p c En).
        destruct (IH (dict_set acc p (PyHex (MD5.hexdigest c)))) as (S & E1 & E2).
        exists S. split; [exact E1|]. eapply scan_file; eauto. discriminate.
      * destruct (IH (dict_set acc p PyNone)) as (S & E1 & E2).
        exists S. split; [exact E1|]. eapply scan_dir; eauto.
      * destruct (IH (dict_set acc p PyNone)) as (S & E1 & E2).
        exists S. split; [exact E1|]. eapply scan_dir; eauto.
      * destruct (IH acc) as (S & E1 & E2). exists S. split; [exact E1|]. apply scan_skip; auto.
    + destruct (IH acc) as (S & E1 & E2). exists S. split; [exact E1|]. apply scan_skip; auto.
Qed.

Lemma scan_snapshot fs t S : listable t -> wf_prop fs -> scan_rel fs (glob_all fs t) [] S -> snapshot fs S.
Proof.
  intros Ht Hwf Hs. split; [|split; [|split]].
  - eapply scan_rel_nodup; [exact Hs|constructor].
  - apply (scan_rel_vals _ _ _ _ Hs). intros ? ? [].
  - intros q. rewrite (scan_rel_keys _ _ _ _ Hs q). simpl. split.
    + intros [[]|[Hq Hl]]. split; [|exact Hl].
      apply glob_all_sub, in_map_iff in Hq as (e & <- & He).
      apply (proj2 Hwf _ He).
    + intros [Hq Hl]. right. split; [|exact Hl].
      destruct (node_at fs q) as [x|] eqn:Ex; [|discriminate].
      apply (glob_complete fs t q x Ht Hwf). apply node_at_In; auto.
  - apply (scan_rel_pf _ _ _ _ Hs).
    + intros a p b Heq. destruct a; discriminate.
    + rewrite app_nil_r. apply glob_all_pf.
    + intros q Hq. apply glob_all_sub, in_map_iff in Hq as (e & <- & He).
      apply (proj2 Hwf _ He).
Qed.

Lemma get_files_in_path_snapshot s st S st' : listable (perm_of st s) ->
  wf_prop (fs_of st s) -> get_files_in_path s st = (Ret S, st') -> snapshot (fs_of st s) S.
Proof.
  intros Ht Hwf H. unfold get_files_in_path in H.
  destruct (scan_entries_rel s (glob_all (fs_of st s) (perm_of st s)) [] st) as (S' & st'' & E1 & _ & E3).
  rewrite E1 in H. inversion H; subst. eapply scan_snapshot; eassumption.
Qed.

Lemma get_files_in_path_quiet s st : listable (perm_of st s) ->
  readable_prop (fs_of st s) -> wf_prop (fs_of st s) ->
  exists S, get_files_in_path s st = (Ret S, st) /\ snapshot (fs_of st s) S.
Proof.
  intros Ht Hrd Hwf. unfold get_files_in_path.
  destruct (scan_entries_quiet s (glob_all (fs_of st s) (perm_of st s)) [] st Hrd) as (S & E1 & E2).
  exists S. split; [exact E1|]. eapply scan_snapshot; eassumption.
Qed.

(* ------------------------------------------------------------------ *)
(** ** The operations of a pass on a well-formed pair of trees *)

Lemma fs_lookup_map_put fs p n :
  fs_lookup (map (fun e => if path_eqb (fst e) p then (p, n) else e) fs) p
  = match fs_lookup fs p with Some _ => Some n | None => None end.
Proof.
  induction fs as [|[k z] fs IH]; simpl; [reflexivity|].
  destruct (path_eqb k p) eqn:Ek; simpl; [rewrite path_eqb_refl; reflexivity|].
  rewrite Ek. exact IH.
Qed.

Lemma fs_lookup_app_new fs p n : fs_lookup fs p = None -> fs_lookup (fs ++ [(p, n)]) p = Some n.
Proof.
  induction fs as [|[k z] fs IH]; simpl; [rewrite path_eqb_refl; reflexivity|].
  destruct (path_eqb k p); [discriminate|exact IH].
Qed.

Lemma map_put_absent fs p n : fs_lookup fs p = None ->
  map (fun e => if path_eqb (fst e) p then (p, n) else e) fs = fs.
Proof.
  induction fs as [|[k z] fs IH]; simpl; [reflexivity|].
  destruct (path_eqb k p); [discriminate|]. intros H. rewrite (IH H). reflexivity.
Qed.

(** A second [fs_put] at the same path overrides the first. *)
Lemma fs_put_put fs p n1 n2 : fs_put (fs_put fs p n1) p n2 = fs_put fs p n2.
Proof.
  unfold fs_put. destruct (fs_lookup fs p) as [y|] eqn:E.
  - rewrite fs_lookup_map_put, E. rewrite map_map. apply map_ext. intros [k z]. simpl.
    destruct (path_eqb k p) eqn:Ek; simpl; [rewrite path_eqb_refl; reflexivity|rewrite Ek; reflexivity].
  - rewrite (fs_lookup_app_new fs p n1 E). rewrite map_app. simpl. rewrite path_eqb_refl.
    rewrite (map_put_absent fs p n2 E). reflexivity.
Qed.

Lemma try_except_ret_eq {A} (m : M A) h st a st' :
  m st = (Ret a, st') -> try_except m h st = (Ret a, st').
Proof. intros H. unfold try_except. rewrite H. reflexivity. Qed.

Lemma parent_writable_default l st : perms_default (perm_of st (fst l)) ->
  parent_writable l st = (Ret true, st).
Proof.
  intros H. unfold parent_writable. destruct (snd l) as [|x par]; [reflexivity|].
  unfold bind, get_perm, ret. simpl. rewrite H. reflexivity.
Qed.

Lemma os_mknode_ok n p st : perms_default (tgt_perm st) ->
  node_at (tgt_fs st) p = None -> p <> [] -> node_at (tgt_fs st) (tl p) = Some NDir ->
  os_mknode n (Target, p) st
  = (Ret tt, with_perm (with_fs st Target (fs_put (tgt_fs st) p n)) Target (perm_drop (tgt_perm st) p)).
Proof.
  intros Hd H1 H2 H3. pose proof (parent_writable_default (Target, p) st Hd) as Hw.
  destruct p as [|x par]; [congruence|].
  unfold os_mknode, bind at 1 2, stat. simpl in *. rewrite H1, H3.
  rewrite (bind_ret_eq _ _ _ _ _ Hw). reflexivity.
Qed.

(** [copystat] between two existing entries whose permissions are those of
    a new entry, from a source entry the user may read. *)
Lemma copystat_default p x y st :
  node_at (src_fs st) p = Some x -> node_at (tgt_fs st) p = Some y ->
  perm_at (src_perm st) p = default_perm -> perm_at (tgt_perm st) p = default_perm ->
  read_bit x default_perm = true ->
  copystat (Source, p) (Target, p) st
  = (Ret tt, with_fs (with_perm st Target (perm_set (tgt_perm st) p default_perm)) Target
               (match y with
                | NFile c a => fs_put (tgt_fs st) p (NFile c (chmod_access true a))
                | _ => tgt_fs st
                end)).
Proof.
  intros H1 H2 H3 H4 H5. unfold copystat, bind, stat, get_perm. simpl.
  rewrite H1, H2, H3, H4, H5. simpl.
  destruct y; reflexivity.
Qed.

Lemma mkdir_parents_ok p st st' :
  os_mkdir (Target, p) st = (Ret tt, st') -> mkdir_parents Target p st = (Ret tt, st').
Proof. intros H. destruct p; simpl; unfold try_except; rewrite H; reflexivity. Qed.

Lemma copy_item_dir p n st :
  perms_default (src_perm st) -> perms_default (tgt_perm st) ->
  node_at (src_fs st) p = Some NDir -> node_at (tgt_fs st) p = None -> p <> [] ->
  node_at (tgt_fs st) (tl p) = Some NDir ->
  copy_item p n st
  = (Ret (S n), with_log (with_perm (with_fs st Target (fs_put (tgt_fs st) p NDir)) Target
                                    (perm_set (perm_drop (tgt_perm st) p) p default_perm))
                         (INFO, MsgCreatedDir (Target, p))).
Proof.
  intros Hsd Htd H1 H2 H3 H4.
  unfold copy_item, is_dir, bind at 1, stat, ret. simpl. rewrite H1.
  unfold try_except, bind.
  rewrite (mkdir_parents_ok p st _ (os_mknode_ok NDir p st Htd H2 H3 H4)).
  rewrite (copystat_default p NDir NDir); try reflexivity.
  - exact H1.
  - simpl. rewrite node_at_put, path_eqb_refl; congruence.
  - apply Hsd.
  - apply perms_default_drop, Htd.
Qed.

Lemma copy_item_fifo p n st :
  perms_default (src_perm st) -> perms_default (tgt_perm st) ->
  node_at (src_fs st) p = Some NFifo -> node_at (tgt_fs st) p = None -> p <> [] ->
  node_at (tgt_fs st) (tl p) = Some NDir ->
  copy_item p n st
  = (Ret (S n), with_log (with_perm (with_fs st Target (fs_put (tgt_fs st) p NFifo)) Target
                                    (perm_set (perm_drop (tgt_perm st) p) p default_perm))
                         (INFO, MsgCreatedFifo (Target, p))).
Proof.
  intros Hsd Htd H1 H2 H3 H4.
  unfold copy_item, is_dir, is_fifo, bind at 1 2, stat, ret. simpl. rewrite H1.
  unfold try_except, bind at 1 2. simpl. rewrite H1.
  rewrite (bind_ret_eq _ _ _ _ _ (os_mknode_ok NFifo p st Htd H2 H3 H4)).
  unfold bind. rewrite (copystat_default p NFifo NFifo); try reflexivity.
  - exact H1.
  - simpl. rewrite node_at_put, path_eqb_refl; congruence.
  - apply Hsd.
  - apply perms_default_drop, Htd.
Qed.

(** Where [open(dst, 'wb')] and a copy into [dst] succeed: nothing there
    and the parent a directory, or a readable file. *)
Definition copy_target_ok (G : fsys) (p : path) : Prop :=
  (node_at G p = None /\ node_at G (tl p) = Some NDir) \/
  (exists c', node_at G p = Some (NFile c' Readable)).

Lemma open_wb_ok p st : perms_default (tgt_perm st) -> p <> [] -> copy_target_ok (tgt_fs st) p ->
  exists t, open_wb (Target, p) st
    = (Ret tt, with_perm (with_fs st Target (fs_put (tgt_fs st) p (NFile [] Readable))) Target t) /\
    perms_default t.
Proof.
  intros Hd Hp [[H1 H2]|[c' H1]].
  - exists (perm_drop (tgt_perm st) p). split; [|apply perms_default_drop, Hd].
    pose proof (parent_writable_default (Target, p) st Hd) as Hw.
    destruct p as [|x par]; [congruence|].
    unfold open_wb, bind at 1 2, stat. simpl in *. rewrite H1. cbv beta iota.
    unfold bind at 1. cbv beta. rewrite H2. rewrite (bind_ret_eq _ _ _ _ _ Hw). reflexivity.
  - exists (tgt_perm st). split; [|exact Hd].
    unfold open_wb, bind, stat, get_perm. simpl. rewrite H1, Hd. reflexivity.
Qed.

Lemma write_data_file l data st c a :
  node_at (fs_of st (fst l)) (snd l) = Some (NFile c a) ->
  write_data l data st = (Ret tt, with_fs st (fst l) (fs_put (fs_of st (fst l)) (snd l) (NFile data a))).
Proof. intros H. unfold write_data, bind, stat. rewrite H. reflexivity. Qed.

Lemma copyfile_ok p c st :
  node_at (src_fs st) p = Some (NFile c Readable) -> p <> [] ->
  perms_default (tgt_perm st) -> copy_target_ok (tgt_fs st) p ->
  exists t, copyfile (Source, p) (Target, p) st
    = (Ret tt, with_perm (with_fs st Target (fs_put (tgt_fs st) p (NFile c Readable))) Target t) /\
    perms_default t.
Proof.
  intros Hs Hp Hd Ht.
  destruct (open_wb_ok p st Hd Hp Ht) as (t1 & Ho & Ht1).
  exists t1. split; [|exact Ht1].
  assert (Hb : node_at (tgt_fs st) p <> Some NFifo)
    by (destruct Ht as [[H _]|[c' H]]; rewrite H; discriminate).
  unfold copyfile, bind at 1 2, stat. cbn [fst snd fs_of]. rewrite Hs.
  destruct (node_at (tgt_fs st) p) as [[ | | | ]|] eqn:Eb; try (exfalso; apply Hb; reflexivity);
  cbv beta iota;
  rewrite (bind_ret_eq _ _ _ _ _ (open_rb_file st Source p c Readable Hs ltac:(discriminate)));
  rewrite (bind_ret_eq _ _ _ _ _ (try_except_ret_eq _ _ _ _ _ Ho));
  change (fault_of (snd (c, Readable))) with (@None nat); cbv beta iota;
  (rewrite (write_data_file (Target, p) c _ [] Readable);
   [ unfold with_fs, with_perm; simpl; rewrite fs_put_put; reflexivity
   | simpl; rewrite node_at_put, path_eqb_refl by exact Hp; reflexivity ]).
Qed.

Lemma copy2_ok p c st :
  perms_default (src_perm st) -> perms_default (tgt_perm st) ->
  node_at (src_fs st) p = Some (NFile c Readable) -> p <> [] -> copy_target_ok (tgt_fs st) p ->
  exists t, copy2 (Source, p) (Target, p) st
    = (Ret tt, with_perm (with_fs st Target (fs_put (tgt_fs st) p (NFile c Readable))) Target t) /\
    perms_default t.
Proof.
  intros Hsd Htd Hs Hp Ht.
  assert (Hid : is_dir (Target, p) st = (Ret false, st)).
  { unfold is_dir, bind, stat, ret. simpl. destruct Ht as [[H _]|[c' H]]; rewrite H; reflexivity. }
  destruct (copyfile_ok p c st Hs Hp Htd Ht) as (t1 & Hc & Ht1).
  exists (perm_set t1 p default_perm). split; [|apply perms_default_set, Ht1].
  unfold copy2. rewrite (bind_ret_eq _ _ _ _ _ Hid). cbv beta iota.
  rewrite (bind_ret_eq _ _ _ _ _ Hc).
  rewrite (copystat_default p (NFile c Readable) (NFile c Readable)); try reflexivity.
  - unfold with_fs, with_perm. simpl. rewrite fs_put_put. reflexivity.
  - exact Hs.
  - simpl. rewrite node_at_put, path_eqb_refl by exact Hp. reflexivity.
  - apply Hsd.
  - apply Ht1.
Qed.

Lemma copy_verify_file_ok p c st :
  perms_default (src_perm st) -> perms_default (tgt_perm st) ->
  node_at (src_fs st) p = Some (NFile c Readable) -> p <> [] -> copy_target_ok (tgt_fs st) p ->
  exists t, copy_verify_file (Source, p) (Target, p) st
    = (Ret true, with_perm (with_fs st Target (fs_put (tgt_fs st) p (NFile c Readable))) Target t) /\
    perms_default t.
Proof.
  intros Hsd Htd Hs Hp Ht.
  destruct (copy2_ok p c st Hsd Htd Hs Hp Ht) as (t & Hc & Hdt).
  exists t. split; [|exact Hdt].
  unfold copy_verify_file. rewrite (bind_ret_eq _ _ _ _ _ Hc).
  set (st' := with_perm _ Target t).
  rewrite (bind_ret_eq _ _ _ _ _ (get_md5_readable st' Source p c Hs)).
  assert (Ht' : node_at (fs_of st' Target) p = Some (NFile c Readable))
    by (simpl; rewrite node_at_put, path_eqb_refl by exact Hp; reflexivity).
  rewrite (bind_ret_eq _ _ _ _ _ (get_md5_readable st' Target p c Ht')).
  unfold md5val_eqb. rewrite String.eqb_refl. reflexivity.
Qed.

Lemma copy_item_file p n c st :
  perms_default (src_perm st) -> perms_default (tgt_perm st) ->
  node_at (src_fs st) p = Some (NFile c Readable) -> p <> [] -> copy_target_ok (tgt_fs st) p ->
  exists t, copy_item p n st
    = (Ret (S n), with_log (with_perm (with_fs st Target (fs_put (tgt_fs st) p (NFile c Readable))) Target t)
                           (INFO, MsgCopied (Source, p) (Target, p))) /\
    perms_default t.
Proof.
  intros Hsd Htd Hs Hp Ht.
  destruct (copy_verify_file_ok p c st Hsd Htd Hs Hp Ht) as (t & Hc & Hdt).
  exists t. split; [|exact Hdt].
  unfold copy_item, is_dir, is_fifo, bind at 1 2, stat, ret. simpl. rewrite Hs.
  unfold try_except, bind at 1 2. simpl. rewrite Hs.
  rewrite (bind_ret_eq _ _ _ _ _ Hc).
  reflexivity.
Qed.

Lemma keys_fs_put fs p n :
  map fst (fs_put fs p n) = if fs_lookup fs p then map fst fs else map fst fs ++ [p].
Proof.
  unfold fs_put. destruct (fs_lookup fs p) as [y|] eqn:E; [|apply map_app].
  clear E. induction fs as [|[k z] fs IH]; simpl; [reflexivity|].
  destruct (path_eqb k p) eqn:Ek; simpl; rewrite IH; [|reflexivity].
  apply path_eqb_eq in Ek. subst. reflexivity.
Qed.

Lemma keys_fs_remove fs p : map fst (fs_remove fs p) = filter (fun q => negb (path_eqb q p)) (map fst fs).
Proof.
  unfold fs_remove. induction fs as [|[k z] fs IH]; simpl; [reflexivity|].
  destruct (path_eqb k p); simpl; rewrite IH; reflexivity.
Qed.

Lemma wf_intro fs :
  NoDup (map fst fs) -> ~ In [] (map fst fs) ->
  (forall q x, q <> [] -> node_at fs q = Some x -> node_at fs (tl q) = Some NDir) ->
  wf_prop fs.
Proof.
  intros Hnd Hnil Hpar. split; [exact Hnd|]. intros [q x] Hin. simpl.
  assert (Hq : q <> []) by (intros ->; apply Hnil; apply (in_map fst) in Hin; exact Hin).
  split; [exact Hq|]. apply (Hpar q x Hq). destruct q; [congruence|]. apply In_fs_lookup; auto.
Qed.

Lemma wf_parent fs q x : wf_prop fs -> q <> [] -> node_at fs q = Some x -> node_at fs (tl q) = Some NDir.
Proof. intros Hwf Hq H. apply node_at_In in H; auto. apply (proj2 (proj2 Hwf _ H)). Qed.

Lemma wf_nil fs : wf_prop fs -> ~ In [] (map fst fs).
Proof. intros Hwf H. apply in_map_iff in H as ([q x] & Hq & H). simpl in Hq. subst. apply (proj1 (proj2 Hwf _ H)). reflexivity. Qed.

Lemma wf_put fs p n : wf_prop fs -> p <> [] -> node_at fs (tl p) = Some NDir ->
  (n = NDir \/ node_at fs p <> Some NDir) -> wf_prop (fs_put fs p n).
Proof.
  intros Hwf Hp Hpar Hn. apply wf_intro.
  - rewrite keys_fs_put. destruct (fs_lookup fs p) eqn:E; [apply Hwf|].
    apply NoDup_app; [apply Hwf|repeat constructor; intros []|].
    intros x Hx [<-|[]]. apply fs_lookup_None in E. auto.
  - rewrite keys_fs_put. destruct (fs_lookup fs p); [apply wf_nil, Hwf|].
    rewrite in_app_iff. intros [H|[H|[]]]; [apply (wf_nil _ Hwf H)|congruence].
  - intros q x Hq. rewrite !node_at_put by exact Hp. destruct (path_eqb p q) eqn:E.
    + apply path_eqb_eq in E. subst q. intros _.
      destruct (path_eqb p (tl p)) eqn:E'; [apply path_eqb_eq in E'; exfalso; exact (tl_neq p Hp (eq_sym E'))|].
      exact Hpar.
    + intros H. pose proof (wf_parent _ _ _ Hwf Hq H) as Hq'.
      destruct (path_eqb p (tl q)) eqn:E'; [|exact Hq'].
      apply path_eqb_eq in E'. subst p. destruct Hn as [->|Hn]; [reflexivity|congruence].
Qed.

Lemma wf_remove fs p : wf_prop fs -> p <> [] ->
  (forall q, q <> [] -> tl q = p -> node_at fs q = None) -> wf_prop (fs_remove fs p).
Proof.
  intros Hwf Hp Hch. apply wf_intro.
  - rewrite keys_fs_remove. apply NoDup_filter, Hwf.
  - rewrite keys_fs_remove. intros H. apply filter_In in H as [H _]. exact (wf_nil _ Hwf H).
  - intros q x Hq. rewrite !node_at_remove by exact Hp. destruct (path_eqb p q) eqn:E; [discriminate|].
    intros H. pose proof (wf_parent _ _ _ Hwf Hq H) as Hq'.
    destruct (path_eqb p (tl q)) eqn:E'; [|exact Hq'].
    apply path_eqb_eq in E'. rewrite (Hch q Hq (eq_sym E')) in H. discriminate.
Qed.

(** A node that is not a directory has no entries below it. *)
Lemma wf_no_children fs p : wf_prop fs -> node_at fs p <> Some NDir ->
  forall q, q <> [] -> tl q = p -> node_at fs q = None.
Proof.
  intros Hwf Hp q Hq Htl. destruct (node_at fs q) as [x|] eqn:E; [|reflexivity].
  apply (wf_parent _ _ _ Hwf Hq) in E. congruence.
Qed.

Lemma readable_put fs p n : readable_prop fs -> p <> [] ->
  (forall c a, n = NFile c a -> a = Readable) -> readable_prop (fs_put fs p n).
Proof.
  intros Hrd Hp Hn q c a. rewrite node_at_put by exact Hp.
  destruct (path_eqb p q); [intros H; inversion H; subst; eapply Hn; reflexivity|apply Hrd].
Qed.

Lemma readable_remove fs p : readable_prop fs -> p <> [] -> readable_prop (fs_remove fs p).
Proof.
  intros Hrd Hp q c a. rewrite node_at_remove by exact Hp.
  destruct (path_eqb p q); [discriminate|apply Hrd].
Qed.

Lemma in_keys_iff p d : in_keys p d = true <-> In p (map fst d).
Proof.
  unfold in_keys. rewrite existsb_exists. split.
  - intros (q & Hq & E). apply path_eqb_eq in E. subst. exact Hq.
  - intros H. exists p. split; [exact H|apply path_eqb_refl].
Qed.

Lemma md5val_eqb_eq v w : md5val_eqb v w = true <-> v = w.
Proof.
  destruct v, w; simpl; split; try congruence; try reflexivity.
  - intros H. apply String.eqb_eq in H. subst. reflexivity.
  - intros H. inversion H. apply String.eqb_refl.
Qed.

Lemma in_values_iff v d : in_values v d = true <-> exists q, In (q, v) d.
Proof.
  unfold in_values. rewrite existsb_exists. split.
  - intros (w & Hw & E). apply md5val_eqb_eq in E. subst.
    apply in_map_iff in Hw as ([q w'] & Hw & H). simpl in Hw. subst. exists q. exact H.
  - intros (q & H). exists v. split; [apply (in_map snd) in H; exact H|apply md5val_eqb_eq; reflexivity].
Qed.

Definition same_kind (n m : node) : bool :=
  match n, m with
  | NFile _ _, NFile _ _ | NDir, NDir | NFifo, NFifo | NOther, NOther => true
  | _, _ => false
  end.

(** A path present in both trees holds the same kind of node in both. *)
Definition kinds_prop (F G : fsys) : Prop :=
  forall p x y, node_at F p = Some x -> node_at G p = Some y -> same_kind x y = true.

(** A source file whose target counterpart has other content has its
    digest nowhere in the target tree. *)
Definition nofor_prop (F G : fsys) : Prop :=
  forall p c a c' a', node_at F p = Some (NFile c a) -> node_at G p = Some (NFile c' a') ->
    MD5.hexdigest c' <> MD5.hexdigest c ->
    forall q c'' a'', node_at G q = Some (NFile c'' a'') -> MD5.hexdigest c'' <> MD5.hexdigest c.

(** The target [G] holds what the source [F] has at [p], up to the digest
    of a file's content. *)
Definition sat (F G : fsys) (p : path) : Prop :=
  match node_at F p with
  | Some (NFile c _) => exists c', node_at G p = Some (NFile c' Readable) /\ MD5.hexdigest c' = MD5.hexdigest c
  | Some NDir => node_at G p = Some NDir
  | Some NFifo => node_at G p = Some NFifo
  | _ => True
  end.

(** The target tree [G] during the copy loop, the paths [done] handled. *)
Definition copy_inv (F G0 : fsys) (done : list path) (G : fsys) : Prop :=
  wf_prop G /\ readable_prop G /\ (forall p, In p done -> sat F G p) /\
  (forall q, ~ In q done -> node_at G q = node_at G0 q).

Lemma sat_ext F G G' p : node_at G' p = node_at G p -> sat F G p -> sat F G' p.
Proof. unfold sat. intros E. rewrite E. exact (fun H => H). Qed.

Lemma copy_inv_extend F G0 done G G' p :
  copy_inv F G0 done G -> wf_prop G' -> readable_prop G' -> sat F G' p ->
  (forall q, q <> p -> node_at G' q = node_at G q) -> copy_inv F G0 (done ++ [p]) G'.
Proof.
  intros (_ & _ & Hsat & Hfr) Hwf Hrd Hp Hq. split; [exact Hwf|]. split; [exact Hrd|]. split.
  - intros q Hin. destruct (list_eq_dec string_dec q p) as [->|Hne]; [exact Hp|].
    apply in_app_iff in Hin as [Hin|[<-|[]]]; [|congruence].
    apply (sat_ext F G); [apply Hq; exact Hne|apply Hsat; exact Hin].
  - intros q Hin. rewrite in_app_iff in Hin. rewrite Hq by (intros ->; apply Hin; right; left; reflexivity).
    apply Hfr. intros H. apply Hin. left. exact H.
Qed.

Lemma snapshot_key fs S p v : snapshot fs S -> In (p, v) S ->
  p <> [] /\ listed (node_at fs p) = true /\ val_ok fs p v.
Proof.
  intros (_ & Hv & Hk & _) H. split; [|split].
  - apply (Hk p). apply (in_map fst) in H. exact H.
  - apply (Hk p). apply (in_map fst) in H. exact H.
  - exact (Hv _ _ H).
Qed.

Lemma snapshot_has fs S p y : snapshot fs S -> p <> [] -> node_at fs p = Some y ->
  listed (Some y) = true -> in_keys p S = true.
Proof.
  intros (_ & _ & Hk & _) Hp Hy Hl. apply in_keys_iff, Hk. rewrite Hy. auto.
Qed.

Lemma PyHex_inj a b : PyHex a = PyHex b -> a = b.
Proof. intros H. exact (f_equal (fun w => match w with PyHex h => h | _ => EmptyString end) H). Qed.

Section PassOne.

Variables (F G0 : fsys) (S T : pydict).
Hypotheses (HwfF : wf_prop F) (HrdF : readable_prop F) (HwfG : wf_prop G0)
  (HrdG : readable_prop G0) (Hkind : kinds_prop F G0) (Hfor : nofor_prop F G0)
  (HS : snapshot F S) (HT : snapshot G0 T).
Variable PF : perms.
Hypothesis HPF : perms_default PF.

Lemma parent_ready S1 p v S2 G :
  S = S1 ++ (p, v) :: S2 -> copy_inv F G0 (map fst S1) G -> node_at G (tl p) = Some NDir.
Proof.
  intros HSeq (_ & _ & Hsat & _).
  destruct HS as (_ & _ & Hk & Hpf).
  assert (Hin : In (p, v) S) by (rewrite HSeq; apply in_app_iff; right; left; reflexivity).
  specialize (Hpf (map fst S1) p (map fst S2) ltac:(rewrite HSeq, map_app; reflexivity)).
  simpl in Hpf. destruct Hpf as [Hnil|Hpf]; [rewrite <- Hnil; reflexivity|].
  specialize (Hsat _ Hpf). unfold sat in Hsat.
  assert (Hp : p <> [] /\ listed (node_at F p) = true) by (apply Hk; apply (in_map fst) in Hin; exact Hin).
  destruct Hp as [Hp Hl]. destruct (node_at F p) as [x|] eqn:Ex; [|discriminate].
  rewrite (wf_parent _ _ _ HwfF Hp Ex) in Hsat. exact Hsat.
Qed.

(** The target counterpart of a source file is a readable file or nothing. *)
Lemma target_of_file p c G :
  node_at F p = Some (NFile c Readable) -> node_at G p = node_at G0 p ->
  node_at G p = None \/ exists c', node_at G p = Some (NFile c' Readable).
Proof.
  intros Hf Hg. rewrite Hg. destruct (node_at G0 p) as [y|] eqn:Ey; [right|left; reflexivity].
  pose proof (Hkind _ _ _ Hf Ey) as Hk. destruct y as [c' a'| | |]; try discriminate.
  rewrite (HrdG _ _ _ Ey). exists c'. reflexivity.
Qed.

Lemma file_skip_sat p c G :
  p <> [] -> node_at F p = Some (NFile c Readable) -> node_at G p = node_at G0 p ->
  in_keys p T = true -> in_values (PyHex (MD5.hexdigest c)) T = true -> sat F G p.
Proof.
  intros Hp Hf Hg Hk Hv. unfold sat. rewrite Hf.
  destruct (target_of_file p c G Hf Hg) as [Hn|[c' Hc']].
  - apply in_keys_iff in Hk. apply (proj1 (proj2 (proj2 HT)) p) in Hk as [_ Hl].
    rewrite <- Hg, Hn in Hl. discriminate.
  - exists c'. split; [exact Hc'|].
    apply in_values_iff in Hv as [q Hq].
    destruct (snapshot_key _ _ _ _ HT Hq) as (_ & _ & Hvq). unfold val_ok in Hvq.
    destruct (node_at G0 q) as [[c'' a''| | |]|] eqn:Eq;
      [| discriminate Hvq | discriminate Hvq | contradiction | contradiction].
    destruct Hvq as [_ Hvq]. specialize (Hvq (HrdG _ _ _ Eq)). apply PyHex_inj in Hvq.
    destruct (string_dec (MD5.hexdigest c') (MD5.hexdigest c)) as [E|E]; [exact E|].
    exfalso. rewrite Hg in Hc'. exact (Hfor p c Readable c' Readable Hf Hc' E q c'' a'' Eq (eq_sym Hvq)).
Qed.

Lemma should_copy_hex T' p h :
  should_copy T' p (PyHex h) = negb (in_keys p T') || negb (in_values (PyHex h) T').
Proof. reflexivity. Qed.

Lemma should_copy_none T' p : should_copy T' p PyNone = negb (in_keys p T').
Proof. unfold should_copy. simpl. destruct (in_keys p T'); reflexivity. Qed.

Lemma put_frame G p n q : p <> [] -> q <> p -> node_at (fs_put G p n) q = node_at G q.
Proof.
  intros Hp Hq. rewrite node_at_put by exact Hp.
  replace (path_eqb p q) with false; [reflexivity|symmetry; apply path_eqb_neq; congruence].
Qed.

Lemma put_here G p n : p <> [] -> node_at (fs_put G p n) p = Some n.
Proof. intros Hp. rewrite node_at_put by exact Hp. rewrite path_eqb_refl. reflexivity. Qed.

Lemma copy_inv_put done G p n :
  copy_inv F G0 done G -> p <> [] -> node_at G (tl p) = Some NDir ->
  (n = NDir \/ node_at G p <> Some NDir) -> (forall c a, n = NFile c a -> a = Readable) ->
  sat F (fs_put G p n) p -> copy_inv F G0 (done ++ [p]) (fs_put G p n).
Proof.
  intros Hinv Hp Hpar Hn Hr Hsat. pose proof Hinv as (Hwf & Hrd & _).
  apply (copy_inv_extend F G0 done G); auto.
  - apply wf_put; auto.
  - apply readable_put; auto.
  - intros q Hq. apply put_frame; auto.
Qed.

Lemma copy_inv_file done G p c :
  copy_inv F G0 done G -> p <> [] -> node_at G (tl p) = Some NDir ->
  node_at F p = Some (NFile c Readable) -> node_at G p <> Some NDir ->
  copy_inv F G0 (done ++ [p]) (fs_put G p (NFile c Readable)).
Proof.
  intros Hinv Hp Hpar Hf Hnd. apply copy_inv_put; auto.
  - intros c0 a0 H; injection H; auto.
  - unfold sat. rewrite Hf, put_here by exact Hp. exists c. auto.
Qed.

Lemma tgt_fs_with_log st l : tgt_fs (with_log st l) = tgt_fs st.
Proof. reflexivity. Qed.

Lemma src_fs_with_log st l : src_fs (with_log st l) = src_fs st.
Proof. reflexivity. Qed.

Lemma absent_in_target p y :
  p <> [] -> node_at G0 p = Some y -> listed (Some y) = true -> in_keys p T = true.
Proof. intros. eapply snapshot_has; eauto. Qed.

Lemma copy_step_inv S1 p v S2 n st :
  S = S1 ++ (p, v) :: S2 -> src_fs st = F -> src_perm st = PF -> perms_default (tgt_perm st) ->
  copy_inv F G0 (map fst S1) (tgt_fs st) ->
  exists n' st', copy_step T (p, v) n st = (Ret n', st') /\ src_fs st' = F /\
    src_perm st' = PF /\ perms_default (tgt_perm st') /\
    copy_inv F G0 (map fst S1 ++ [p]) (tgt_fs st').
Proof.
  intros HSeq Hsrc Hsp Htd Hinv.
  assert (Hsd : perms_default (src_perm st)) by (rewrite Hsp; exact HPF).
  assert (Hin : In (p, v) S) by (rewrite HSeq; apply in_app_iff; right; left; reflexivity).
  destruct (snapshot_key _ _ _ _ HS Hin) as (Hp & Hl & Hv).
  assert (Hnd : ~ In p (map fst S1)).
  { destruct HS as (Hnd & _). rewrite HSeq, map_app in Hnd. simpl in Hnd.
    apply NoDup_remove_2 in Hnd. intros H; apply Hnd, in_app_iff; left; exact H. }
  pose proof Hinv as (Hwf1 & Hrd1 & _ & Hfr1).
  assert (Hfr : node_at (tgt_fs st) p = node_at G0 p) by (apply Hfr1; exact Hnd).
  assert (Hpar : node_at (tgt_fs st) (tl p) = Some NDir) by (eapply parent_ready; eassumption).
  assert (Hsrcp : node_at (src_fs st) p = node_at F p) by (rewrite Hsrc; reflexivity).
  unfold val_ok in Hv. unfold copy_step; cbn [fst snd].
  destruct (node_at F p) as [[c a| | |]|] eqn:EF; [| | |contradiction|contradiction].
  - pose proof (HrdF _ _ _ EF) as ->. destruct Hv as [_ Hv]. specialize (Hv eq_refl). subst v.
    assert (Hcopy : exists n' st', copy_item p n st = (Ret n', st') /\ src_fs st' = F /\
                      src_perm st' = PF /\ perms_default (tgt_perm st') /\
                      copy_inv F G0 (map fst S1 ++ [p]) (tgt_fs st')).
    { destruct (target_of_file p c (tgt_fs st) EF Hfr) as [Hn|Hc].
      - destruct (copy_item_file p n c st Hsd Htd Hsrcp Hp (or_introl (conj Hn Hpar))) as (t & E & Ht).
        rewrite E. eexists; eexists; split; [reflexivity|]. split; [exact Hsrc|].
        split; [exact Hsp|]. split; [exact Ht|].
        apply copy_inv_file; auto. rewrite Hn. discriminate.
      - destruct (copy_item_file p n c st Hsd Htd Hsrcp Hp (or_intror Hc)) as (t & E & Ht).
        rewrite E. eexists; eexists; split; [reflexivity|]. split; [exact Hsrc|].
        split; [exact Hsp|]. split; [exact Ht|].
        apply copy_inv_file; auto. destruct Hc as [c' ->]. discriminate. }
    rewrite should_copy_hex.
    destruct (in_keys p T) eqn:Ek; [destruct (in_values (PyHex (MD5.hexdigest c)) T) eqn:Ev|];
      cbn [negb orb]; try exact Hcopy.
    exists n, st. split; [reflexivity|]. split; [exact Hsrc|]. split; [exact Hsp|]. split; [exact Htd|].
    apply (copy_inv_extend F G0 _ (tgt_fs st)); auto.
    apply (file_skip_sat p c); auto.
  - subst v. rewrite should_copy_none.
    destruct (in_keys p T) eqn:Ek; cbn [negb].
    + exists n, st. split; [reflexivity|]. split; [exact Hsrc|]. split; [exact Hsp|]. split; [exact Htd|].
      apply (copy_inv_extend F G0 _ (tgt_fs st)); auto.
      unfold sat. rewrite EF, Hfr. apply in_keys_iff in Ek.
      apply (proj1 (proj2 (proj2 HT)) p) in Ek as [_ Hl'].
      destruct (node_at G0 p) as [y|] eqn:Ey; [|discriminate].
      pose proof (Hkind _ _ _ EF Ey) as Hk. destruct y; try discriminate. reflexivity.
    + assert (Hn : node_at (tgt_fs st) p = None).
      { rewrite Hfr. destruct (node_at G0 p) as [y|] eqn:Ey; [|reflexivity].
        pose proof (Hkind _ _ _ EF Ey) as Hk. destruct y; try discriminate.
        rewrite (absent_in_target p NDir Hp Ey eq_refl) in Ek. discriminate. }
      rewrite (copy_item_dir p n st Hsd Htd Hsrcp Hn Hp Hpar).
      eexists; eexists; split; [reflexivity|]. split; [exact Hsrc|]. split; [exact Hsp|].
      split; [apply perms_default_set, perms_default_drop, Htd|].
      apply copy_inv_put; auto.
      * intros c0 a0 H; discriminate.
      * unfold sat. rewrite EF. apply put_here; exact Hp.
  - subst v. rewrite should_copy_none.
    destruct (in_keys p T) eqn:Ek; cbn [negb].
    + exists n, st. split; [reflexivity|]. split; [exact Hsrc|]. split; [exact Hsp|]. split; [exact Htd|].
      apply (copy_inv_extend F G0 _ (tgt_fs st)); auto.
      unfold sat. rewrite EF, Hfr. apply in_keys_iff in Ek.
      apply (proj1 (proj2 (proj2 HT)) p) in Ek as [_ Hl'].
      destruct (node_at G0 p) as [y|] eqn:Ey; [|discriminate].
      pose proof (Hkind _ _ _ EF Ey) as Hk. destruct y; try discriminate. reflexivity.
    + assert (Hn : node_at (tgt_fs st) p = None).
      { rewrite Hfr. destruct (node_at G0 p) as [y|] eqn:Ey; [|reflexivity].
        pose proof (Hkind _ _ _ EF Ey) as Hk. destruct y; try discriminate.
        rewrite (absent_in_target p NFifo Hp Ey eq_refl) in Ek. discriminate. }
      rewrite (copy_item_fifo p n st Hsd Htd Hsrcp Hn Hp Hpar).
      eexists; eexists; split; [reflexivity|]. split; [exact Hsrc|]. split; [exact Hsp|].
      split; [apply perms_default_set, perms_default_drop, Htd|].
      apply copy_inv_put; auto.
      * right. rewrite Hn. discriminate.
      * intros c0 a0 H; discriminate.
      * unfold sat. rewrite EF. apply put_here; exact Hp.
Qed.

Lemma copy_loop_inv S2 S1 n st :
  S = S1 ++ S2 -> src_fs st = F -> src_perm st = PF -> perms_default (tgt_perm st) ->
  copy_inv F G0 (map fst S1) (tgt_fs st) ->
  exists n' st', copy_loop T S2 n st = (Ret n', st') /\ src_fs st' = F /\
    src_perm st' = PF /\ perms_default (tgt_perm st') /\
    copy_inv F G0 (map fst S) (tgt_fs st').
Proof.
  revert S1 n st. induction S2 as [|[p v] S2 IH]; intros S1 n st HSeq Hsrc Hsp Htd Hinv.
  - exists n, st. rewrite HSeq, app_nil_r. auto.
  - destruct (copy_step_inv S1 p v S2 n st HSeq Hsrc Hsp Htd Hinv)
      as (n1 & st1 & E1 & Hsrc1 & Hsp1 & Htd1 & Hinv1).
    simpl copy_loop. rewrite (bind_ret_eq _ _ _ _ _ E1).
    apply (IH (S1 ++ [(p, v)])); auto.
    + rewrite HSeq, <- app_assoc. reflexivity.
    + rewrite map_app. exact Hinv1.
Qed.

End PassOne.

Definition path_mem (q : path) (l : list path) : bool := existsb (path_eqb q) l.

Definition is_dir_opt (o : option node) : bool :=
  match o with Some NDir => true | _ => false end.

Lemma path_mem_In q l : path_mem q l = true <-> In q l.
Proof.
  unfold path_mem. rewrite existsb_exists. split.
  - intros (x & Hx & E). apply path_eqb_eq in E. subst. exact Hx.
  - intros H. exists q. split; [exact H|apply path_eqb_refl].
Qed.

Lemma path_mem_cons q x l : path_mem q (x :: l) = path_eqb q x || path_mem q l.
Proof. reflexivity. Qed.

Lemma has_children_false fs d : has_children fs d = false ->
  forall q, q <> [] -> tl q = d -> node_at fs q = None.
Proof.
  intros H q Hq Htl. destruct q as [|x par]; [congruence|]. simpl in Htl. subst par.
  simpl. destruct (fs_lookup fs (x :: d)) as [y|] eqn:E; [|reflexivity].
  apply fs_lookup_In in E. exfalso.
  assert (Hc : has_children fs d = true).
  { unfold has_children. apply existsb_exists. exists ((x :: d), y). split; [exact E|].
    simpl. apply path_eqb_refl. }
  congruence.
Qed.

Lemma sweep_keep S' q ks ds n st : in_keys q S' = true ->
  remove_sweep S' (q :: ks) ds n st = remove_sweep S' ks ds n st.
Proof. intros E. simpl. rewrite E. reflexivity. Qed.

Lemma sweep_dir S' q ks ds n st : in_keys q S' = false -> node_at (tgt_fs st) q = Some NDir ->
  remove_sweep S' (q :: ks) ds n st = remove_sweep S' ks (ds ++ [q]) n st.
Proof. intros E H. simpl. rewrite E. unfold is_dir, bind, stat, ret. simpl. rewrite H. reflexivity. Qed.

Lemma is_dir_eq l st :
  is_dir l st = (Ret (match node_at (fs_of st (fst l)) (snd l) with Some NDir => true | _ => false end), st).
Proof. reflexivity. Qed.

Lemma unlink_ok q x st : perms_default (tgt_perm st) ->
  node_at (tgt_fs st) q = Some x -> x <> NDir ->
  unlink (Target, q) st = (Ret tt, with_fs st Target (fs_remove (tgt_fs st) q)).
Proof.
  intros Hd H Hx. unfold unlink, bind at 1, stat. simpl. rewrite H. cbv beta iota.
  rewrite (bind_ret_eq _ _ _ _ _ (parent_writable_default (Target, q) st Hd)).
  destruct x; try congruence; reflexivity.
Qed.

Lemma rmdir_ok d st : perms_default (tgt_perm st) -> node_at (tgt_fs st) d = Some NDir ->
  rmdir (Target, d) st
  = if has_children (tgt_fs st) d then (Raise DirectoryNotEmpty, st)
    else (Ret tt, with_fs st Target (fs_remove (tgt_fs st) d)).
Proof.
  intros Hd H. unfold rmdir, bind at 1, stat. simpl. rewrite H. cbv beta iota.
  rewrite (bind_ret_eq _ _ _ _ _ (parent_writable_default (Target, d) st Hd)).
  reflexivity.
Qed.

Lemma sweep_file S' q ks ds n st x : perms_default (tgt_perm st) ->
  in_keys q S' = false -> node_at (tgt_fs st) q = Some x -> x <> NDir ->
  remove_sweep S' (q :: ks) ds n st
  = remove_sweep S' ks ds (S n) (with_log (with_fs st Target (fs_remove (tgt_fs st) q)) (INFO, MsgRemovedFile (Target, q))).
Proof.
  intros Hd E H Hx. simpl. rewrite E.
  rewrite (bind_ret_eq _ _ _ _ _ (is_dir_eq (Target, q) st)). cbn [fst snd fs_of]. rewrite H.
  replace (match Some x with Some NDir => true | _ => false end) with false
    by (destruct x; congruence).
  assert (Hu : (unlink (Target, q) ;; log INFO (MsgRemovedFile (Target, q)) ;; ret (S n)) st
               = (Ret (S n), with_log (with_fs st Target (fs_remove (tgt_fs st) q)) (INFO, MsgRemovedFile (Target, q))))
    by (rewrite (bind_ret_eq _ _ _ _ _ (unlink_ok q x st Hd H Hx)); reflexivity).
  rewrite (bind_ret_eq _ _ _ _ _ (try_except_ret_eq _ _ _ _ _ Hu)). reflexivity.
Qed.

Lemma with_log_fs_tgt st g l : tgt_fs (with_log (with_fs st Target g) l) = g.
Proof. reflexivity. Qed.

Lemma with_log_fs_src st g l : src_fs (with_log (with_fs st Target g) l) = src_fs st.
Proof. reflexivity. Qed.

Lemma sweep_ok S' ks ds n st : perms_default (tgt_perm st) ->
  wf_prop (tgt_fs st) -> readable_prop (tgt_fs st) -> NoDup ks ->
  (forall q, In q ks -> in_keys q S' = false -> q <> [] /\ listed (node_at (tgt_fs st) q) = true) ->
  exists n' st', remove_sweep S' ks ds n st
    = (Ret (ds ++ filter (fun q => negb (in_keys q S') && is_dir_opt (node_at (tgt_fs st) q)) ks, n'), st') /\
    src_fs st' = src_fs st /\ src_perm st' = src_perm st /\ tgt_perm st' = tgt_perm st /\ wf_prop (tgt_fs st') /\ readable_prop (tgt_fs st') /\
    forall q, node_at (tgt_fs st') q =
      if path_mem q ks && negb (in_keys q S') && negb (is_dir_opt (node_at (tgt_fs st) q))
      then None else node_at (tgt_fs st) q.
Proof.
  revert ds n st. induction ks as [|q0 ks IH]; intros ds n st Hd Hwf Hrd Hnd Hks.
  - exists n, st. rewrite app_nil_r. do 4 (split; [reflexivity|]).
    split; [exact Hwf|]. split; [exact Hrd|]. intros q. reflexivity.
  - apply NoDup_cons_iff in Hnd as [Hq0 Hnd].
    assert (Hmem : forall q, path_mem q ks = true -> q <> q0).
    { intros q Hq ->. apply Hq0, path_mem_In, Hq. }
    destruct (in_keys q0 S') eqn:Ek.
    + rewrite sweep_keep by exact Ek.
      destruct (IH ds n st Hd Hwf Hrd Hnd (fun q Hq => Hks q (or_intror Hq))) as (n' & st' & E & H1 & P1 & P2 & H2 & H3 & H4).
      exists n', st'. simpl filter. rewrite Ek. simpl negb. cbn [andb]. rewrite E.
      split; [reflexivity|]. split; [exact H1|]. split; [exact P1|]. split; [exact P2|]. split; [exact H2|]. split; [exact H3|]. intros q. rewrite H4, path_mem_cons.
      destruct (path_eqb q q0) eqn:Eq; [|reflexivity].
      apply path_eqb_eq in Eq. subst q. rewrite Ek.
      destruct (path_mem q0 ks) eqn:Em; [exfalso; apply (Hmem q0 Em); reflexivity|reflexivity].
    + destruct (Hks q0 (or_introl eq_refl) Ek) as [Hp Hl].
      destruct (node_at (tgt_fs st) q0) as [x|] eqn:Ex; [|discriminate].
      assert (Hx' : x = NDir \/ x <> NDir) by (destruct x; [right; discriminate|left; reflexivity|right; discriminate|right; discriminate]).
      destruct Hx' as [->|Hx].
      * rewrite (sweep_dir S' q0 ks ds n st Ek Ex).
        destruct (IH (ds ++ [q0]) n st Hd Hwf Hrd Hnd (fun q Hq => Hks q (or_intror Hq))) as (n' & st' & E & H1 & P1 & P2 & H2 & H3 & H4).
        exists n', st'. rewrite E. simpl filter. rewrite Ek, Ex. simpl negb. cbn [andb is_dir_opt].
        rewrite <- app_assoc. split; [reflexivity|]. split; [exact H1|]. split; [exact P1|]. split; [exact P2|]. split; [exact H2|]. split; [exact H3|]. intros q. rewrite H4, path_mem_cons.
        destruct (path_eqb q q0) eqn:Eq; [|reflexivity].
        apply path_eqb_eq in Eq. subst q. rewrite Ex, Ek. simpl. destruct (path_mem q0 ks); reflexivity.
      * rewrite (sweep_file S' q0 ks ds n st x Hd Ek Ex Hx).
        set (st1 := with_log (with_fs st Target (fs_remove (tgt_fs st) q0)) (INFO, MsgRemovedFile (Target, q0))).
        assert (Hfr : forall q, q <> q0 -> node_at (tgt_fs st1) q = node_at (tgt_fs st) q).
        { intros q Hq. unfold st1. rewrite with_log_fs_tgt, node_at_remove by exact Hp.
          replace (path_eqb q0 q) with false; [reflexivity|symmetry; apply path_eqb_neq; congruence]. }
        assert (Hwf1 : wf_prop (tgt_fs st1)).
        { unfold st1. rewrite with_log_fs_tgt. apply wf_remove; auto. apply wf_no_children; auto. congruence. }
        assert (Hrd1 : readable_prop (tgt_fs st1)).
        { unfold st1. rewrite with_log_fs_tgt. apply readable_remove; auto. }
        assert (Hks1 : forall q, In q ks -> in_keys q S' = false -> q <> [] /\ listed (node_at (tgt_fs st1) q) = true).
        { intros q Hq Hk. rewrite Hfr by (intros ->; exact (Hq0 Hq)). apply Hks; [right|]; assumption. }
        destruct (IH ds (S n) st1 Hd Hwf1 Hrd1 Hnd Hks1) as (n' & st' & E & H1 & P1 & P2 & H2 & H3 & H4).
        exists n', st'. rewrite E. simpl filter. rewrite Ek, Ex. simpl negb. cbn [andb].
        replace (is_dir_opt (Some x)) with false by (destruct x; [reflexivity|congruence|reflexivity|reflexivity]).
        split.
        { do 4 f_equal. apply filter_ext_in. intros q Hq.
          f_equal. f_equal. apply (Hfr q). intros ->. exact (Hq0 Hq). }
        split; [rewrite H1; reflexivity|]. split; [exact P1|]. split; [exact P2|]. split; [exact H2|]. split; [exact H3|].
        intros q. rewrite H4, path_mem_cons.
        destruct (path_eqb q q0) eqn:Eq.
        -- apply path_eqb_eq in Eq. subst q.
           destruct (path_mem q0 ks) eqn:Em; [exfalso; apply (Hmem q0 Em); reflexivity|].
           change (tgt_fs st1) with (fs_remove (tgt_fs st) q0).
           rewrite node_at_remove by exact Hp. rewrite path_eqb_refl, Ek, Ex.
           replace (is_dir_opt (Some x)) with false by (destruct x; [reflexivity|congruence|reflexivity|reflexivity]).
           reflexivity.
        -- apply path_eqb_neq in Eq. rewrite Hfr by exact Eq. simpl. reflexivity.
Qed.

Lemma rmdir_step d ds n st n' st' : perms_default (tgt_perm st) -> node_at (tgt_fs st) d = Some NDir ->
  remove_dirs (d :: ds) n st = (Ret n', st') ->
  has_children (tgt_fs st) d = false /\
  remove_dirs ds (S n) (with_log (with_fs st Target (fs_remove (tgt_fs st) d)) (INFO, MsgRemovedDir (Target, d)))
  = (Ret n', st').
Proof.
  intros Hd H. simpl. unfold bind at 1 2, try_except. cbv beta. rewrite (rmdir_ok d st Hd H).
  destruct (has_children (tgt_fs st) d); simpl; [discriminate|]. auto.
Qed.

Lemma remove_dirs_ok ds n st n' st' : perms_default (tgt_perm st) ->
  wf_prop (tgt_fs st) -> readable_prop (tgt_fs st) -> NoDup ds ->
  (forall d, In d ds -> d <> [] /\ node_at (tgt_fs st) d = Some NDir) ->
  remove_dirs ds n st = (Ret n', st') ->
  src_fs st' = src_fs st /\ src_perm st' = src_perm st /\ tgt_perm st' = tgt_perm st /\ wf_prop (tgt_fs st') /\ readable_prop (tgt_fs st') /\
  forall q, node_at (tgt_fs st') q = if path_mem q ds then None else node_at (tgt_fs st) q.
Proof.
  revert n st. induction ds as [|d ds IH]; intros n st Hd0 Hwf Hrd Hnd Hds E.
  - simpl in E. injection E as _ <-. do 3 (split; [reflexivity|]).
    split; [exact Hwf|]. split; [exact Hrd|]. intros q. reflexivity.
  - apply NoDup_cons_iff in Hnd as [Hd Hnd].
    destruct (Hds d (or_introl eq_refl)) as [Hp Hdir].
    destruct (rmdir_step d ds n st n' st' Hd0 Hdir E) as [Hc E1].
    set (st1 := with_log (with_fs st Target (fs_remove (tgt_fs st) d)) (INFO, MsgRemovedDir (Target, d))) in E1.
    assert (Hfr : forall q, q <> d -> node_at (tgt_fs st1) q = node_at (tgt_fs st) q).
    { intros q Hq. change (tgt_fs st1) with (fs_remove (tgt_fs st) d). rewrite node_at_remove by exact Hp.
      replace (path_eqb d q) with false; [reflexivity|symmetry; apply path_eqb_neq; congruence]. }
    assert (Hwf1 : wf_prop (tgt_fs st1)).
    { apply wf_remove; auto. apply has_children_false. exact Hc. }
    assert (Hrd1 : readable_prop (tgt_fs st1)) by (apply readable_remove; auto).
    assert (Hds1 : forall d', In d' ds -> d' <> [] /\ node_at (tgt_fs st1) d' = Some NDir).
    { intros d' Hd'. rewrite Hfr by (intros ->; exact (Hd Hd')). apply Hds. right. exact Hd'. }
    destruct (IH (S n) st1 Hd0 Hwf1 Hrd1 Hnd Hds1 E1) as (H1 & P1 & P2 & H2 & H3 & H4).
    split; [exact H1|]. split; [exact P1|]. split; [exact P2|]. split; [exact H2|]. split; [exact H3|].
    intros q. rewrite H4, path_mem_cons. destruct (path_eqb q d) eqn:Eq.
    + apply path_eqb_eq in Eq. subst q.
      destruct (path_mem d ds) eqn:Em; [exfalso; apply Hd, path_mem_In, Em|].
      change (tgt_fs st1) with (fs_remove (tgt_fs st) d). rewrite node_at_remove by exact Hp.
      rewrite path_eqb_refl. reflexivity.
    + apply path_eqb_neq in Eq. rewrite Hfr by exact Eq. reflexivity.
Qed.

(** The log of a pass that finds nothing to copy and nothing to remove. *)
Definition quiet_pass_log : list logline :=
  [(INFO, MsgScanningSource); (INFO, MsgScanningTarget); (INFO, MsgComparingCopy);
   (INFO, MsgTotalNew 0); (INFO, MsgComparingRemove); (INFO, MsgTotalRemoved 0); (INFO, MsgDone)].

(** The target mirrors the source: every listed target path is listed in
    the source, and every listed source path is matched in the target. *)
Definition synced (F G : fsys) : Prop :=
  (forall q, q <> [] -> listed (node_at G q) = true -> listed (node_at F q) = true) /\
  (forall q, q <> [] -> listed (node_at F q) = true -> sat F G q).

Lemma bind_log {B} lv m (k : unit -> M B) st : bind (log lv m) k st = k tt (with_log st (lv, m)).
Proof. reflexivity. Qed.

Lemma copy_loop_quiet T' es n st :
  (forall e, In e es -> should_copy T' (fst e) (snd e) = false) -> copy_loop T' es n st = (Ret n, st).
Proof.
  revert n st. induction es as [|e es IH]; intros n st H; [reflexivity|].
  simpl copy_loop. unfold copy_step. rewrite (H e (or_introl eq_refl)).
  rewrite (bind_ret_eq _ _ _ _ _ (eq_refl : ret n st = (Ret n, st))).
  apply IH. intros e' He'. apply H. right. exact He'.
Qed.

Lemma sweep_quiet S' ks ds n st :
  (forall q, In q ks -> in_keys q S' = true) -> remove_sweep S' ks ds n st = (Ret (ds, n), st).
Proof.
  revert st. induction ks as [|q ks IH]; intros st H; [reflexivity|].
  rewrite sweep_keep by (apply H; left; reflexivity). apply IH. intros q' Hq. apply H. right. exact Hq.
Qed.

Lemma in_keys_entry p d : in_keys p d = true -> exists w, In (p, w) d.
Proof.
  intros H. apply in_keys_iff, in_map_iff in H as ([q w] & Hq & H). simpl in Hq. subst q. exists w. exact H.
Qed.

Lemma quiet_should_copy F G S' T' p v :
  readable_prop F -> readable_prop G -> synced F G -> snapshot F S' -> snapshot G T' ->
  In (p, v) S' -> should_copy T' p v = false.
Proof.
  intros HrdF HrdG [Hback Hsat] HS HT Hin.
  destruct (snapshot_key _ _ _ _ HS Hin) as (Hp & Hl & Hv).
  specialize (Hsat p Hp Hl). unfold sat in Hsat. unfold val_ok in Hv.
  destruct (node_at F p) as [[c a| | |]|] eqn:EF; [| | |contradiction|contradiction].
  - rewrite (HrdF _ _ _ EF) in Hv. destruct Hv as [_ Hv]. specialize (Hv eq_refl). subst v.
    destruct Hsat as (c' & Hg & Hh).
    assert (Hk : in_keys p T' = true) by (eapply snapshot_has; eauto).
    rewrite should_copy_hex, Hk. simpl.
    destruct (in_keys_entry _ _ Hk) as [w Hw].
    destruct (snapshot_key _ _ _ _ HT Hw) as (_ & _ & Hvw). unfold val_ok in Hvw. rewrite Hg in Hvw.
    destruct Hvw as [_ Hvw]. specialize (Hvw eq_refl). subst w.
    assert (Hvs : in_values (PyHex (MD5.hexdigest c)) T' = true).
    { apply in_values_iff. exists p. rewrite <- Hh. exact Hw. }
    rewrite Hvs. reflexivity.
  - subst v. rewrite should_copy_none. erewrite snapshot_has; eauto.
  - subst v. rewrite should_copy_none. erewrite snapshot_has; eauto.
Qed.

Lemma state_ext s s' :
  src_fs s = src_fs s' -> tgt_fs s = tgt_fs s' -> src_exists s = src_exists s' ->
  tgt_exists s = tgt_exists s' -> logs s = logs s' -> queue s = queue s' ->
  src_perm s = src_perm s' -> tgt_perm s = tgt_perm s' -> s = s'.
Proof. destruct s, s'; simpl; intros; subst; reflexivity. Qed.

Lemma quiet_pass i st :
  wf_prop (src_fs st) -> readable_prop (src_fs st) -> wf_prop (tgt_fs st) -> readable_prop (tgt_fs st) ->
  perms_default (src_perm st) -> perms_default (tgt_perm st) ->
  synced (src_fs st) (tgt_fs st) ->
  do_sync_dirs i st
  = (Ret (mkEvent i 1 i), mkState (src_fs st) (tgt_fs st) (src_exists st) (tgt_exists st)
                                   (logs st ++ quiet_pass_log) (queue st ++ [mkEvent i 1 i])
                                   (src_perm st) (tgt_perm st)).
Proof.
  intros HwfF HrdF HwfG HrdG Hsd Htd Hsync.
  unfold do_sync_dirs. rewrite bind_log.
  set (st1 := with_log st (INFO, MsgScanningSource)).
  destruct (get_files_in_path_quiet Source st1 (perms_default_listable _ Hsd) HrdF HwfF) as (S' & ES & HS).
  change (fs_of st1 Source) with (src_fs st) in HS.
  rewrite (bind_ret_eq _ _ _ _ _ ES), bind_log.
  set (st2 := with_log st1 (INFO, MsgScanningTarget)).
  destruct (get_files_in_path_quiet Target st2 (perms_default_listable _ Htd) HrdG HwfG) as (T' & ET & HT).
  change (fs_of st2 Target) with (tgt_fs st) in HT.
  rewrite (bind_ret_eq _ _ _ _ _ ET), bind_log.
  set (st3 := with_log st2 (INFO, MsgComparingCopy)).
  assert (Ec : copy_objects S' T' st3 = (Ret tt, with_log st3 (INFO, MsgTotalNew 0))).
  { assert (Hq : forall e, In e S' -> should_copy T' (fst e) (snd e) = false).
    { intros [p v] Hin. exact (quiet_should_copy _ _ S' T' p v HrdF HrdG Hsync HS HT Hin). }
    unfold copy_objects. rewrite (bind_ret_eq _ _ _ _ _ (copy_loop_quiet T' S' 0 st3 Hq)). reflexivity. }
  rewrite (bind_ret_eq _ _ _ _ _ Ec), bind_log.
  set (st4 := with_log (with_log st3 (INFO, MsgTotalNew 0)) (INFO, MsgComparingRemove)).
  assert (Er : remove_objects S' T' st4 = (Ret tt, with_log st4 (INFO, MsgTotalRemoved 0))).
  { assert (Hk : forall q, In q (map fst T') -> in_keys q S' = true).
    { intros q Hq. destruct HT as (_ & _ & HkT & _). destruct HS as (_ & _ & HkS & _).
      apply HkT in Hq as [Hq Hl]. apply in_keys_iff, HkS. split; [exact Hq|].
      apply (proj1 Hsync); assumption. }
    unfold remove_objects. rewrite (bind_ret_eq _ _ _ _ _ (sweep_quiet S' (map fst T') [] 0 st4 Hk)).
    reflexivity. }
  rewrite (bind_ret_eq _ _ _ _ _ Er), bind_log.
  unfold sched_enter. f_equal. apply state_ext; try reflexivity.
  unfold st4, st3, st2, st1. cbn [logs with_queue with_log].
  unfold quiet_pass_log. repeat rewrite <- app_assoc. reflexivity.
Qed.

Lemma bind_inv_ret {A B} (m : M A) (k : A -> M B) st b st' :
  bind m k st = (Ret b, st') -> exists a st1, m st = (Ret a, st1) /\ k a st1 = (Ret b, st').
Proof.
  unfold bind. destruct (m st) as [[a|e] st1]; intros H; [exists a, st1; auto|discriminate].
Qed.

Lemma bind_assoc_st {A B C} (m : M A) (f : A -> M B) (k : B -> M C) st :
  bind (bind m f) k st = bind m (fun a => bind (f a) k) st.
Proof. unfold bind. destruct (m st) as [[a|e] st1]; reflexivity. Qed.

Lemma pass_one_synced i st ev st1 :
  wf_prop (src_fs st) -> readable_prop (src_fs st) -> wf_prop (tgt_fs st) -> readable_prop (tgt_fs st) ->
  kinds_prop (src_fs st) (tgt_fs st) -> nofor_prop (src_fs st) (tgt_fs st) ->
  perms_default (src_perm st) -> perms_default (tgt_perm st) ->
  do_sync_dirs i st = (Ret ev, st1) ->
  src_fs st1 = src_fs st /\ src_perm st1 = src_perm st /\ perms_default (tgt_perm st1) /\ wf_prop (tgt_fs st1) /\ readable_prop (tgt_fs st1) /\
  synced (src_fs st1) (tgt_fs st1).
Proof.
  intros HwfF HrdF HwfG HrdG Hkind Hfor Hsd Htd H.
  set (F := src_fs st) in *. set (G0 := tgt_fs st) in *.
  unfold do_sync_dirs in H. rewrite bind_log in H.
  set (st1' := with_log st (INFO, MsgScanningSource)) in H.
  destruct (get_files_in_path_quiet Source st1' (perms_default_listable _ Hsd) HrdF HwfF) as (S & ES & HS).
  change (fs_of st1' Source) with F in HS.
  rewrite (bind_ret_eq _ _ _ _ _ ES), bind_log in H.
  set (st2 := with_log st1' (INFO, MsgScanningTarget)) in H.
  destruct (get_files_in_path_quiet Target st2 (perms_default_listable _ Htd) HrdG HwfG) as (T & ET & HT).
  change (fs_of st2 Target) with G0 in HT.
  rewrite (bind_ret_eq _ _ _ _ _ ET), bind_log in H.
  set (st3 := with_log st2 (INFO, MsgComparingCopy)) in H.
  assert (Hinv0 : copy_inv F G0 (map fst ([] : pydict)) (tgt_fs st3)).
  { split; [exact HwfG|]. split; [exact HrdG|]. split; [intros p []|]. intros q _. reflexivity. }
  destruct (copy_loop_inv F G0 S T HwfF HrdF HrdG Hkind Hfor HS HT (src_perm st) Hsd S [] 0 st3
              eq_refl eq_refl eq_refl Htd Hinv0)
    as (n1 & st4 & E4 & Hsrc4 & Hsp4 & Htd4 & Hinv4).
  assert (Ec : copy_objects S T st3 = (Ret tt, with_log st4 (INFO, MsgTotalNew n1))).
  { unfold copy_objects. rewrite (bind_ret_eq _ _ _ _ _ E4). reflexivity. }
  rewrite (bind_ret_eq _ _ _ _ _ Ec), bind_log in H.
  set (st5 := with_log (with_log st4 (INFO, MsgTotalNew n1)) (INFO, MsgComparingRemove)) in H.
  destruct Hinv4 as (HwfG1 & HrdG1 & Hsat1 & Hfr1).
  assert (HfrT : forall q, In q (map fst T) -> in_keys q S = false -> q <> [] /\ listed (node_at (tgt_fs st5) q) = true).
  { intros q Hq Hk. change (tgt_fs st5) with (tgt_fs st4). rewrite Hfr1.
    - destruct HT as (_ & _ & HkT & _). apply HkT. exact Hq.
    - intros Hin. apply in_keys_iff in Hin. congruence. }
  assert (HndT : NoDup (map fst T)) by apply HT.
  destruct (sweep_ok S (map fst T) [] 0 st5 Htd4 HwfG1 HrdG1 HndT HfrT)
    as (n2 & st6 & E6 & Hsrc6 & Hsp6 & Htp6 & HwfG6 & HrdG6 & Hch6).
  assert (Htd6 : perms_default (tgt_perm st6)) by (rewrite Htp6; exact Htd4).
  unfold remove_objects in H. rewrite bind_assoc_st, (bind_ret_eq _ _ _ _ _ E6) in H.
  apply bind_inv_ret in H as (u & st7' & H7 & H8).
  apply bind_inv_ret in H7 as (n3 & st7 & H7 & H9).
  set (ds := [] ++ filter (fun q => negb (in_keys q S) && is_dir_opt (node_at (tgt_fs st5) q)) (map fst T)) in H7.
  assert (Hds : forall d, In d ds -> d <> [] /\ node_at (tgt_fs st6) d = Some NDir /\ In d (map fst T) /\
                                     in_keys d S = false /\ node_at (tgt_fs st4) d = Some NDir).
  { intros d Hd. unfold ds in Hd. simpl in Hd. apply filter_In in Hd as [Hd Hb].
    apply andb_true_iff in Hb as [Hk Hdir]. apply negb_true_iff in Hk.
    change (tgt_fs st5) with (tgt_fs st4) in Hdir.
    assert (HG1 : node_at (tgt_fs st4) d = Some NDir) by (destruct (node_at (tgt_fs st4) d) as [[]|]; simpl in Hdir; try discriminate; reflexivity).
    split; [apply (HfrT d Hd Hk)|]. split; [|auto].
    rewrite Hch6. change (tgt_fs st5) with (tgt_fs st4). rewrite Hk, HG1.
    destruct (path_mem d (map fst T)); reflexivity. }
  assert (Hndds : NoDup ds) by (apply NoDup_filter; exact HndT).
  destruct (remove_dirs_ok ds n2 st6 n3 st7 Htd6 HwfG6 HrdG6 Hndds
              (fun d Hd => conj (proj1 (Hds d Hd)) (proj1 (proj2 (Hds d Hd)))) H7)
    as (Hsrc7 & Hsp7 & Htp7 & HwfG7 & HrdG7 & Hch7).
  unfold log in H9. injection H9 as _ <-.
  unfold sched_enter in H8. injection H8 as _ <-.
  unfold with_queue, with_log. cbn [src_fs tgt_fs src_perm tgt_perm].
  assert (HsrcF : src_fs st7 = F) by (rewrite Hsrc7, Hsrc6; exact Hsrc4).
  rewrite HsrcF.
  split; [reflexivity|]. split; [rewrite Hsp7, Hsp6; exact Hsp4|]. split; [rewrite Htp7; exact Htd6|]. split; [exact HwfG7|]. split; [exact HrdG7|].
  assert (Hfinal : forall q, node_at (tgt_fs st7) q =
     if path_mem q ds then None
     else if path_mem q (map fst T) && negb (in_keys q S) && negb (is_dir_opt (node_at (tgt_fs st4) q)) then None
     else node_at (tgt_fs st4) q).
  { intros q. rewrite Hch7, Hch6. reflexivity. }
  split.
  - intros q Hq Hl. destruct (in_keys q S) eqn:Ek.
    + apply in_keys_iff in Ek. apply HS in Ek as [_ Hl']. exact Hl'.
    + exfalso. rewrite Hfinal in Hl. rewrite Ek in Hl.
      assert (HG1 : node_at (tgt_fs st4) q = node_at G0 q) by (apply Hfr1; intros Hin; apply in_keys_iff in Hin; congruence).
      destruct (path_mem q ds) eqn:Ed; [discriminate|].
      destruct (path_mem q (map fst T)) eqn:Et.
      * destruct (is_dir_opt (node_at (tgt_fs st4) q)) eqn:Edir; [|discriminate].
        assert (Hin : In q ds).
        { unfold ds. simpl. apply filter_In. split; [apply path_mem_In; exact Et|].
          change (tgt_fs st5) with (tgt_fs st4). rewrite Ek, Edir. reflexivity. }
        apply path_mem_In in Hin. congruence.
      * simpl in Hl. rewrite HG1 in Hl.
        assert (Hin : In q (map fst T)) by (apply HT; auto).
        apply path_mem_In in Hin. congruence.
  - intros q Hq Hl.
    assert (Hk : In q (map fst S)) by (apply HS; auto).
    apply (sat_ext F (tgt_fs st4)); [|apply Hsat1; exact Hk].
    rewrite Hfinal. apply in_keys_iff in Hk as Ek. rewrite Ek.
    destruct (path_mem q ds) eqn:Ed; [|destruct (path_mem q (map fst T)); reflexivity].
    apply path_mem_In in Ed. destruct (Hds q Ed) as (_ & _ & _ & Hk' & _). congruence.
Qed.

(** Decidable forms of the conditions of the idempotence theorem. *)
Definition access_readable (a : access) : bool :=
  match a with Readable => true | _ => false end.

Fixpoint nodupb (l : list path) : bool :=
  match l with
  | [] => true
  | x :: l' => negb (path_mem x l') && nodupb l'
  end.

Definition wf_fs (fs : fsys) : bool :=
  nodupb (map fst fs) &&
  forallb (fun e => negb (path_eqb (fst e) []) && is_dir_opt (node_at fs (tl (fst e)))) fs.

Definition all_readable (fs : fsys) : bool :=
  forallb (fun e => match snd e with NFile _ a => access_readable a | _ => true end) fs.

Definition kinds_agree (F G : fsys) : bool :=
  forallb (fun e => match fs_lookup G (fst e) with Some m => same_kind (snd e) m | None => true end) F.

Definition digest_in (G : fsys) (h : string) : bool :=
  existsb (fun e => match snd e with NFile c _ => String.eqb (MD5.hexdigest c) h | _ => false end) G.

Definition no_foreign_match (F G : fsys) : bool :=
  forallb (fun e => match snd e with
                    | NFile c _ =>
                        match fs_lookup G (fst e) with
                        | Some (NFile c' _) =>
                            String.eqb (MD5.hexdigest c') (MD5.hexdigest c)
                            || negb (digest_in G (MD5.hexdigest c))
                        | _ => true
                        end
                    | _ => true
                    end) F.

Definition perm_eqb (m m' : perm) : bool :=
  Bool.eqb (pm_read m) (pm_read m') && Bool.eqb (pm_write m) (pm_write m') && Bool.eqb (pm_own m) (pm_own m').

(** Every entry of a permission table is [default_perm]. *)
Definition all_default (t : perms) : bool := forallb (fun e => perm_eqb (snd e) default_perm) t.

Lemma all_default_prop t : all_default t = true -> perms_default t.
Proof.
  intros H q. unfold perm_at. induction t as [|[k m] t IH]; simpl; [reflexivity|].
  simpl in H. apply andb_true_iff in H as [H1 H2].
  destruct (path_eqb k q); [|exact (IH H2)].
  destruct m as [r w o]. unfold perm_eqb in H1. simpl in H1.
  destruct r, w, o; try discriminate; reflexivity.
Qed.

Lemma nodupb_NoDup l : nodupb l = true -> NoDup l.
Proof.
  induction l as [|x l IH]; intros H; [constructor|].
  simpl in H. apply andb_true_iff in H as [H1 H2]. constructor; [|exact (IH H2)].
  intros Hin. apply path_mem_In in Hin. rewrite Hin in H1. discriminate.
Qed.

Lemma is_dir_opt_true o : is_dir_opt o = true -> o = Some NDir.
Proof. destruct o as [[]|]; simpl; congruence. Qed.

Lemma wf_fs_prop fs : wf_fs fs = true -> wf_prop fs.
Proof.
  unfold wf_fs. intros H. apply andb_true_iff in H as [H1 H2]. split; [exact (nodupb_NoDup _ H1)|].
  intros e He. rewrite forallb_forall in H2. specialize (H2 e He).
  apply andb_true_iff in H2 as [H2 H3]. split.
  - intros E. rewrite E in H2. discriminate.
  - exact (is_dir_opt_true _ H3).
Qed.

Lemma node_at_cons_In fs p x : p <> [] -> node_at fs p = Some x -> In (p, x) fs.
Proof. destruct p as [|y p]; [congruence|]. intros _ H. exact (fs_lookup_In _ _ _ H). Qed.

Lemma all_readable_prop fs : all_readable fs = true -> readable_prop fs.
Proof.
  intros H p c a E. destruct p as [|y p]; [discriminate|].
  apply node_at_cons_In in E; [|discriminate].
  unfold all_readable in H. rewrite forallb_forall in H. specialize (H _ E). cbn [snd] in H.
  destruct a; [reflexivity|discriminate|discriminate].
Qed.

Lemma kinds_agree_prop F G : kinds_agree F G = true -> kinds_prop F G.
Proof.
  intros H p x y Ex Ey. destruct p as [|z p].
  - injection Ex as <-. injection Ey as <-. reflexivity.
  - apply node_at_cons_In in Ex; [|discriminate].
    unfold kinds_agree in H. rewrite forallb_forall in H. specialize (H _ Ex). cbn [fst snd] in H.
    change (node_at G (z :: p)) with (fs_lookup G (z :: p)) in Ey. rewrite Ey in H. exact H.
Qed.

Lemma no_foreign_match_prop F G : no_foreign_match F G = true -> nofor_prop F G.
Proof.
  intros H p c a c' a' Ef Eg Hne q c'' a'' Eq Heq.
  destruct p as [|z p]; [discriminate|].
  apply node_at_cons_In in Ef; [|discriminate].
  unfold no_foreign_match in H. rewrite forallb_forall in H. specialize (H _ Ef). cbn [fst snd] in H.
  change (node_at G (z :: p)) with (fs_lookup G (z :: p)) in Eg. rewrite Eg in H.
  apply orb_true_iff in H as [H|H].
  - apply String.eqb_eq in H. exact (Hne H).
  - apply negb_true_iff in H.
    destruct q as [|w q]; [discriminate|].
    apply node_at_cons_In in Eq; [|discriminate].
    assert (Hd : digest_in G (MD5.hexdigest c) = true).
    { unfold digest_in. apply existsb_exists. exists (w :: q, NFile c'' a''). split; [exact Eq|].
      cbn [snd]. apply String.eqb_eq. exact Heq. }
    rewrite Hd in H. discriminate.
Qed.




(* ================================================================== *)
(** * Further properties of the code *)

(* ------------------------------------------------------------------ *)
(** ** The scan *)

Lemma only_logs_scan_entries s es acc : only_logs (scan_entries s es acc).
Proof.
  revert acc. induction es as [|p es IH]; intros acc; simpl; [auto with readonly|].
  apply only_logs_bind; [apply only_logs_stat|].
  intros [[c a| | | ]|]; auto.
  apply only_logs_bind; auto with readonly.
Qed.


(** A source tree with a readable file, a directory holding a file that
    cannot be opened, a named pipe and a socket. *)
Definition scan_demo_state : state :=
  mkState [(["a.txt"%string], NFile (list_byte_of_string "1") Readable);
           (["d"%string], NDir);
           (["p.txt"%string; "d"%string], NFile (list_byte_of_string "2") NoPerm);
           (["fifo"%string], NFifo);
           (["sock"%string], NOther)]
          [] true true [] [] [] [].




(* ------------------------------------------------------------------ *)
(** ** get_md5 *)

(** [get_md5] touches nothing but the log: it either returns a hex digest
    and leaves the state as it was, or returns [0] after logging exactly one
    warning, which names the file and the exception caught. *)
Theorem get_md5_effect l st :
  (exists h, get_md5 l st = (Ret (PyHex h), st)) \/
  (exists e, is_Exception e = true /\
             get_md5 l st = (Ret PyZero, with_log st (WARNING, MsgCannotGetMd5 l e))).
Proof.
  destruct (md5_stream l st) as [[h|e] st'] eqn:E;
    pose proof (md5_stream_same_state _ _ _ _ E) as ->.
  - left. exists h. unfold get_md5, try_except, bind at 1. rewrite E. reflexivity.
  - right. exists e. split; [exact (md5_stream_raises_Exception _ _ _ _ E)|].
    exact (get_md5_failing _ _ _ _ E).
Qed.


Lemma ancestors_dirs fs q : wf_prop fs -> node_at fs q <> None ->
  forall a, In a (ancestors q) -> node_at fs a = Some NDir.
Proof.
  intros Hwf. induction q as [|y q IH]; intros Hq a Ha; [destruct Ha|].
  destruct (node_at fs (y :: q)) as [x|] eqn:Ex; [|congruence].
  apply node_at_cons_In in Ex; [|discriminate].
  destruct (proj2 Hwf _ Ex) as [_ Hp]. cbn [fst tl] in Hp.
  cbn [ancestors] in Ha. apply in_app_or in Ha as [Ha|[<-|[]]]; [|exact Hp].
  apply IH; [congruence|exact Ha].
Qed.

Lemma first_bad_dirs fs l r : (forall a, In a l -> node_at fs a = Some NDir) ->
  first_bad fs (l ++ r) = first_bad fs r.
Proof.
  induction l as [|a l IH]; intros H; [reflexivity|]. cbn [app first_bad].
  rewrite (H a (or_introl eq_refl)). apply IH. intros b Hb. apply H. right. exact Hb.
Qed.

Lemma ancestors_split a p : In a (ancestors p) -> exists r, ancestors p = ancestors a ++ a :: r.
Proof.
  induction p as [|y p IH]; intros H; [destruct H|]. cbn [ancestors] in H |- *.
  apply in_app_or in H as [H|[<-|[]]].
  - destruct (IH H) as (r & Er). exists (r ++ [p]). rewrite Er, <- app_assoc. reflexivity.
  - exists []. reflexivity.
Qed.



(* ------------------------------------------------------------------ *)
(** ** The source tree is never written *)

(** A computation that leaves the source tree and both root flags as it
    found them. *)
Definition keeps_source {A} (m : M A) : Prop :=
  forall st r st', m st = (r, st') ->
    src_fs st' = src_fs st /\ src_exists st' = src_exists st /\ tgt_exists st' = tgt_exists st.

Lemma keeps_tame {A} (m : M A) : tame m -> keeps_source m.
Proof. intros H st r st' E. apply H in E as (E1 & E2 & E3 & _). auto. Qed.

Lemma keeps_bind {A B} (m : M A) (k : A -> M B) :
  keeps_source m -> (forall a, keeps_source (k a)) -> keeps_source (bind m k).
Proof.
  intros Hm Hk st r st' H. unfold bind in H.
  destruct (m st) as [[a|e] s1] eqn:E; apply Hm in E as (E1 & E2 & E3).
  - apply Hk in H as (F1 & F2 & F3). repeat split; congruence.
  - inversion H; subst. auto.
Qed.

Lemma keeps_try {A} (m : M A) (h : exc -> option (M A)) :
  keeps_source m -> (forall e k, h e = Some k -> keeps_source k) -> keeps_source (try_except m h).
Proof.
  intros Hm Hh st r st' H. unfold try_except in H.
  destruct (m st) as [[a|e] s1] eqn:E; apply Hm in E as (E1 & E2 & E3).
  - inversion H; subst. auto.
  - destruct (h e) as [k|] eqn:Eh.
    + apply (Hh _ _ Eh) in H as (F1 & F2 & F3). repeat split; congruence.
    + inversion H; subst. auto.
Qed.

Lemma keeps_log lv m : keeps_source (log lv m).
Proof. intros st r st' H. inversion H; subst. auto. Qed.

Lemma keeps_ret {A} (a : A) : keeps_source (ret a).
Proof. intros st r st' H. inversion H; subst. auto. Qed.

Lemma keeps_raise {A} (e : exc) : keeps_source (@raise A e).
Proof. intros st r st' H. inversion H; subst. auto. Qed.

Lemma keeps_do_sync_dirs i : keeps_source (do_sync_dirs i).
Proof.
  unfold do_sync_dirs.
  repeat (apply keeps_bind; [first [apply keeps_log | apply keeps_tame; solve [tame_tac]] | intro]).
  intros st r st' H. inversion H; subst. auto.
Qed.

Lemma keeps_sched_run fuel : keeps_source (sched_run fuel).
Proof.
  induction fuel as [|fuel IH]; [apply keeps_ret|].
  intros st r st' H. simpl in H. destruct (queue st) as [|ev rest]; [inversion H; subst; auto|].
  apply (keeps_bind _ _ (keeps_do_sync_dirs (ev_interval ev)) (fun _ => IH)) in H.
  exact H.
Qed.

Lemma keeps_check_root s : keeps_source (check_root s).
Proof.
  intros st r st' H. unfold check_root in H. destruct (root_exists st s).
  - inversion H; subst. auto.
  - exact (keeps_bind _ _ (keeps_log _ _) (fun _ => keeps_raise _) _ _ _ H).
Qed.

(** No run of the program writes to the source tree: a pass
    [do_sync_dirs] and [main], in either mode and whatever they return or
    raise, leave the source tree (and both root flags) as they found it. *)
Theorem source_never_written :
  (forall i st r st', do_sync_dirs i st = (r, st') -> src_fs st' = src_fs st) /\
  (forall a fuel st r st', main a fuel st = (r, st') -> src_fs st' = src_fs st).
Proof.
  split.
  - intros i st r st' H. apply keeps_do_sync_dirs in H. apply H.
  - intros a fuel st r st' H. unfold main in H.
    assert (K : keeps_source (main a fuel)).
    { unfold main.
      repeat (apply keeps_bind; [first [apply keeps_log | apply keeps_check_root
                                       | destruct (arg_oneshot a); apply keeps_log
                                       | intros s0 r0 s0' E; inversion E; subst; auto] | intro]).
      apply keeps_try.
      - apply keeps_bind; [apply keeps_do_sync_dirs|intro].
        destruct (arg_oneshot a); [apply keeps_ret|apply keeps_sched_run].
      - intros e k Hk. destruct e; try discriminate. injection Hk as <-.
        apply keeps_bind; [apply keeps_log|intro; apply keeps_raise]. }
    apply K in H. apply H.
Qed.

(* ------------------------------------------------------------------ *)
(** ** Edge cases of the copy action *)


(** The source holds a directory [d] with a file [d/f]; the target holds a
    file [d].  The copy phase skips [d] (a directory is only created when
    its path is missing) and fails on [d/f]; the pass raises. *)
Definition under_file_state : state :=
  mkState [(["d"%string], NDir); (["f"%string; "d"%string], NFile (list_byte_of_string "1") Readable)]
          [(["d"%string], NFile (list_byte_of_string "0") Readable)] true true [] [] [] [].




Lemma copyfile_into p q c st :
  node_at (src_fs st) p = Some (NFile c Readable) -> q <> [] ->
  perms_default (tgt_perm st) -> copy_target_ok (tgt_fs st) q ->
  exists t, copyfile (Source, p) (Target, q) st
    = (Ret tt, with_perm (with_fs st Target (fs_put (tgt_fs st) q (NFile c Readable))) Target t) /\
    perms_default t.
Proof.
  intros Hs Hq Hd Ht.
  destruct (open_wb_ok q st Hd Hq Ht) as (t1 & Ho & Ht1).
  exists t1. split; [|exact Ht1].
  assert (Hb : node_at (tgt_fs st) q <> Some NFifo)
    by (destruct Ht as [[H _]|[c' H]]; rewrite H; discriminate).
  unfold copyfile, bind at 1 2, stat. cbn [fst snd fs_of]. rewrite Hs.
  destruct (node_at (tgt_fs st) q) as [[ | | | ]|] eqn:Eb; try (exfalso; apply Hb; reflexivity);
  cbv beta iota;
  rewrite (bind_ret_eq _ _ _ _ _ (open_rb_file st Source p c Readable Hs ltac:(discriminate)));
  rewrite (bind_ret_eq _ _ _ _ _ (try_except_ret_eq _ _ _ _ _ Ho));
  change (fault_of (snd (c, Readable))) with (@None nat); cbv beta iota;
  (rewrite (write_data_file (Target, q) c _ [] Readable);
   [ unfold with_fs, with_perm; simpl; rewrite fs_put_put; reflexivity
   | simpl; rewrite node_at_put, path_eqb_refl by exact Hq; reflexivity ]).
Qed.

Lemma copystat_into p q x y st :
  node_at (src_fs st) p = Some x -> node_at (tgt_fs st) q = Some y ->
  perm_at (src_perm st) p = default_perm -> perm_at (tgt_perm st) q = default_perm ->
  read_bit x default_perm = true ->
  copystat (Source, p) (Target, q) st
  = (Ret tt, with_fs (with_perm st Target (perm_set (tgt_perm st) q default_perm)) Target
               (match y with
                | NFile c a => fs_put (tgt_fs st) q (NFile c (chmod_access true a))
                | _ => tgt_fs st
                end)).
Proof.
  intros H1 H2 H3 H4 H5. unfold copystat, bind, stat, get_perm. simpl.
  rewrite H1, H2, H3, H4, H5. simpl.
  destruct y; reflexivity.
Qed.

Lemma md5_stream_dir s p st : node_at (fs_of st s) p = Some NDir ->
  md5_stream (s, p) st
  = (Raise (if pm_read (perm_at (perm_of st s) p) then IsADirectoryError else PermissionError), st).
Proof.
  intros Hd. unfold md5_stream, open_rb, bind, stat, get_perm. simpl. rewrite Hd.
  destruct (pm_read _); reflexivity.
Qed.

Lemma basename_neq p : basename p :: p <> p.
Proof. intros E. apply (f_equal (@List.length string)) in E. simpl in E. lia. Qed.

Lemma copy2_into_dir p c st :
  perms_default (src_perm st) -> perms_default (tgt_perm st) ->
  node_at (src_fs st) p = Some (NFile c Readable) ->
  node_at (tgt_fs st) p = Some NDir -> node_at (tgt_fs st) (basename p :: p) = None ->
  exists t, copy2 (Source, p) (Target, p) st
    = (Ret tt, with_perm (with_fs st Target (fs_put (tgt_fs st) (basename p :: p) (NFile c Readable))) Target t) /\
    perms_default t.
Proof.
  intros Hsd Htd Hs Hd Hn.
  assert (Hid : is_dir (Target, p) st = (Ret true, st))
    by (unfold is_dir, bind, stat, ret; cbn [fst snd fs_of]; rewrite Hd; reflexivity).
  destruct (copyfile_into p (basename p :: p) c st Hs ltac:(discriminate) Htd (or_introl (conj Hn Hd)))
    as (t1 & Hc & Ht1).
  exists (perm_set t1 (basename p :: p) default_perm). split; [|apply perms_default_set, Ht1].
  unfold copy2. rewrite (bind_ret_eq _ _ _ _ _ Hid). cbv beta iota zeta. cbn [fst snd].
  rewrite (bind_ret_eq _ _ _ _ _ Hc).
  rewrite (copystat_into p (basename p :: p) (NFile c Readable) (NFile c Readable)); try reflexivity.
  - unfold with_fs, with_perm. simpl. rewrite fs_put_put. reflexivity.
  - exact Hs.
  - cbn [fs_of with_perm with_fs tgt_fs]. rewrite node_at_put, path_eqb_refl by discriminate. reflexivity.
  - apply Hsd.
  - apply Ht1.
Qed.

Lemma copy_verify_file_into_dir p c st :
  perms_default (src_perm st) -> perms_default (tgt_perm st) ->
  node_at (src_fs st) p = Some (NFile c Readable) ->
  node_at (tgt_fs st) p = Some NDir -> node_at (tgt_fs st) (basename p :: p) = None ->
  exists t, copy_verify_file (Source, p) (Target, p) st
    = (Ret false,
       with_log (with_log
         (with_perm (with_fs st Target (fs_put (tgt_fs st) (basename p :: p) (NFile c Readable))) Target t)
         (WARNING, MsgCannotGetMd5 (Target, p) IsADirectoryError))
         (WARNING, MsgModifiedDuringCopy (Source, p))) /\
    perms_default t.
Proof.
  intros Hsd Htd Hs Hd Hn.
  destruct (copy2_into_dir p c st Hsd Htd Hs Hd Hn) as (t & Hc & Ht).
  exists t. split; [|exact Ht].
  unfold copy_verify_file. rewrite (bind_ret_eq _ _ _ _ _ Hc).
  set (st1 := with_perm _ Target t).
  rewrite (bind_ret_eq _ _ _ _ _ (get_md5_readable st1 Source p c Hs)).
  assert (Hd1 : node_at (fs_of st1 Target) p = Some NDir).
  { unfold st1. cbn [fs_of with_perm with_fs tgt_fs]. rewrite node_at_put by discriminate.
    replace (path_eqb (basename p :: p) p) with false; [exact Hd|].
    symmetry. apply path_eqb_neq. apply basename_neq. }
  assert (Hr : pm_read (perm_at (perm_of st1 Target) p) = true)
    by (unfold st1; cbn [perm_of with_perm with_fs tgt_perm]; rewrite Ht; reflexivity).
  pose proof (md5_stream_dir Target p st1 Hd1) as Em. rewrite Hr in Em.
  rewrite (bind_ret_eq _ _ _ _ _ (get_md5_failing _ _ _ _ Em)).
  reflexivity.
Qed.


(** The source holds the file [x]; the target holds the directory [x]. *)
Definition file_over_dir_state : state :=
  mkState [(["x"%string], NFile (list_byte_of_string "1") Readable)]
          [(["x"%string], NDir)] true true [] [] [] [].


Lemma bind_raise_eq {A B} (m : M A) (k : A -> M B) st e st1 :
  m st = (Raise e, st1) -> bind m k st = (Raise e, st1).
Proof. intros H. unfold bind. rewrite H. reflexivity. Qed.

Lemma copyfile_fault p c k st :
  node_at (src_fs st) p = Some (NFile c (ReadFault k)) -> p <> [] ->
  perms_default (tgt_perm st) -> copy_target_ok (tgt_fs st) p ->
  chunk_size * k < List.length c ->
  exists t, copyfile (Source, p) (Target, p) st
    = (Raise IOError,
       with_perm (with_fs st Target (fs_put (tgt_fs st) p (NFile (firstn (chunk_size * k) c) Readable))) Target t) /\
    perms_default t.
Proof.
  intros Hs Hp Hd Ht Hlt.
  destruct (open_wb_ok p st Hd Hp Ht) as (t1 & Ho & Ht1).
  exists t1. split; [|exact Ht1].
  assert (Hw : node_at (fs_of (with_perm (with_fs st Target (fs_put (tgt_fs st) p (NFile [] Readable))) Target t1)
                              Target) p = Some (NFile [] Readable))
    by (simpl; rewrite node_at_put, path_eqb_refl by exact Hp; reflexivity).
  assert (Hb : node_at (tgt_fs st) p <> Some NFifo)
    by (destruct Ht as [[H _]|[c' H]]; rewrite H; discriminate).
  unfold copyfile, bind at 1 2, stat. cbn [fst snd fs_of]. rewrite Hs.
  destruct (node_at (tgt_fs st) p) as [[ | | | ]|] eqn:Eb; try (exfalso; apply Hb; reflexivity);
  cbv beta iota;
  rewrite (bind_ret_eq _ _ _ _ _ (open_rb_file st Source p c (ReadFault k) Hs ltac:(discriminate)));
  rewrite (bind_ret_eq _ _ _ _ _ (try_except_ret_eq _ _ _ _ _ Ho));
  change (fault_of (snd (c, ReadFault k))) with (Some k); cbv beta iota zeta; cbn [fst];
  rewrite (proj2 (Nat.ltb_lt _ _) Hlt);
  rewrite (bind_ret_eq _ _ _ _ _ (write_data_file (Target, p) (firstn (chunk_size * k) c) _ [] Readable Hw));
  unfold raise, with_fs, with_perm; simpl; rewrite fs_put_put; reflexivity.
Qed.


(** A 5000 byte file whose second read call fails. *)
Definition read_error_state : state :=
  mkState [(["big"%string], NFile (repeat "a"%byte 5000) (ReadFault 1))]
          [(["big"%string], NFile (list_byte_of_string "0") Readable)] true true [] [] [] [].


Lemma first_bad_found fs l : (forall a, In a l -> node_at fs a = None \/ node_at fs a = Some NDir) ->
  first_bad fs l = FileNotFoundError.
Proof.
  induction l as [|a l IH]; intros H; [reflexivity|]. cbn [first_bad].
  destruct (H a (or_introl eq_refl)) as [E|E]; rewrite E; [reflexivity|].
  apply IH. intros b Hb. apply H. right. exact Hb.
Qed.




(* ------------------------------------------------------------------ *)
(** ** The scheduler and main *)

Lemma sched_run_count fuel st st' ev :
  queue st = [ev] -> sched_run fuel st = (Ret tt, st') ->
  count_done (logs st') = count_done (logs st) + fuel /\
  queue st' = match fuel with O => [ev] | S _ => [mkEvent (ev_interval ev) 1 (ev_interval ev)] end.
Proof.
  revert st ev. induction fuel as [|fuel IH]; intros st ev Hq H.
  - simpl in H. injection H as <-. rewrite Nat.add_0_r. auto.
  - simpl in H. rewrite Hq in H. unfold bind in H.
    destruct (do_sync_dirs (ev_interval ev) (with_queue st [])) as [r s1] eqn:Hd.
    apply do_sync_dirs_shape in Hd as [(-> & Hq1 & Hc1)|(e & -> & _ & _)]; [|discriminate].
    simpl in Hq1.
    destruct (IH s1 _ Hq1 H) as [Hc Hq2]. split.
    + rewrite Hc, Hc1. simpl. lia.
    + rewrite Hq2. destruct fuel; reflexivity.
Qed.

(** [schedule.run()] with the one pending event a pass leaves: each
    event run is a completed pass which enters exactly one next event, so
    if [fuel] events run without an error, [fuel] more [Done!] lines are
    logged and one event (for the same interval) is still pending. *)
Theorem sched_run_passes fuel st st' ev :
  queue st = [ev] -> sched_run fuel st = (Ret tt, st') ->
  count_done (logs st') = count_done (logs st) + fuel /\
  queue st' = match fuel with O => [ev] | S _ => [mkEvent (ev_interval ev) 1 (ev_interval ev)] end.
Proof. apply sched_run_count. Qed.

Lemma sched_run_passes_witness :
  fst (sched_run 3 (with_queue scenario_state [mkEvent 600 1 600])) = Ret tt /\
  count_done (logs (snd (sched_run 3 (with_queue scenario_state [mkEvent 600 1 600])))) = 0 + 3 /\
  queue (snd (sched_run 3 (with_queue scenario_state [mkEvent 600 1 600]))) = [mkEvent 600 1 600].
Proof.
  split; [vm_compute; reflexivity|].
  apply (sched_run_passes 3 (with_queue scenario_state [mkEvent 600 1 600]) _ (mkEvent 600 1 600));
    [reflexivity|vm_compute; reflexivity].
Defined.

Lemma main_after_checks a fuel st :
  src_exists st = true -> tgt_exists st = true ->
  main a fuel st
  = try_except
      (_ <- do_sync_dirs (arg_interval a) ;;
       if arg_oneshot a then ret tt else sched_run fuel)
      on_keyboard_interrupt
      (mkState (src_fs st) (tgt_fs st) true true (logs st ++ startup_log a) [] (src_perm st) (tgt_perm st)).
Proof.
  destruct st as [sf tf se te ls q sp tp]; simpl. intros -> ->.
  unfold main, check_root, bind, log, startup_log, with_log. simpl.
  destruct (arg_oneshot a); simpl; repeat rewrite <- app_assoc; reflexivity.
Qed.

(** [main] in periodic mode, both roots present: if it returns after
    the scheduler has run [fuel] events, it has run [fuel + 1] complete
    passes and one event is still pending. *)
Theorem main_periodic_passes a fuel st st' :
  arg_oneshot a = false -> src_exists st = true -> tgt_exists st = true ->
  main a fuel st = (Ret tt, st') ->
  count_done (logs st') = count_done (logs st) + S fuel /\
  queue st' = [mkEvent (arg_interval a) 1 (arg_interval a)].
Proof.
  intros Hone Hs Ht H. rewrite (main_after_checks a fuel st Hs Ht), Hone in H.
  unfold try_except, bind in H.
  destruct (do_sync_dirs _ _) as [r s2] eqn:Hd.
  apply do_sync_dirs_shape in Hd as [(-> & Hq & Hc)|(e & -> & _ & _)].
  - simpl in Hq.
    destruct (sched_run fuel s2) as [[u|e] s3] eqn:Hr.
    + injection H as _ <-. destruct u.
      destruct (sched_run_count fuel s2 s3 _ Hq Hr) as [Hc3 Hq3].
      split.
      * rewrite Hc3, Hc. simpl. rewrite count_done_app.
        rewrite (count_done_none (startup_log a)) by (unfold startup_log; rewrite Hone; reflexivity). lia.
      * rewrite Hq3. destruct fuel; reflexivity.
    + unfold on_keyboard_interrupt in H. destruct e; try discriminate.
  - unfold on_keyboard_interrupt in H. destruct e; discriminate.
Qed.

Definition periodic_args : args := mkArgs false 600 "dirsync.log".

Lemma main_periodic_passes_witness :
  fst (main periodic_args 2 scenario_state) = Ret tt /\
  count_done (logs (snd (main periodic_args 2 scenario_state))) = 0 + 3 /\
  queue (snd (main periodic_args 2 scenario_state)) = [mkEvent 600 1 600].
Proof.
  split; [vm_compute; reflexivity|].
  apply (main_periodic_passes periodic_args 2 scenario_state);
    [reflexivity|reflexivity|reflexivity|vm_compute; reflexivity].
Defined.

(** Both roots present, the first pass raises an exception other than
    [KeyboardInterrupt]: [main] does not catch it; it ends with that
    exception, in the state the pass left, and no further pass runs. *)
Theorem main_pass_error a fuel st e st1 :
  src_exists st = true -> tgt_exists st = true -> e <> KeyboardInterrupt ->
  do_sync_dirs (arg_interval a)
    (mkState (src_fs st) (tgt_fs st) true true (logs st ++ startup_log a) [] (src_perm st) (tgt_perm st)) = (Raise e, st1) ->
  main a fuel st = (Raise e, st1).
Proof.
  intros Hs Ht He Hd. rewrite (main_after_checks a fuel st Hs Ht).
  unfold try_except, bind. rewrite Hd. unfold on_keyboard_interrupt.
  destruct e; try reflexivity. congruence.
Qed.

Lemma main_pass_error_witness :
  main periodic_args 5 under_file_state
  = (Raise NotADirectoryError,
     snd (do_sync_dirs 600 (mkState (src_fs under_file_state) (tgt_fs under_file_state) true true
                                    (logs under_file_state ++ startup_log periodic_args) [] [] []))).
Proof.
  apply main_pass_error; [reflexivity|reflexivity|discriminate|vm_compute; reflexivity].
Defined.

(* ------------------------------------------------------------------ *)
(** ** Creating a directory or a named pipe over an existing path *)


(** The target holds a socket where the source has a named pipe. *)
Definition fifo_over_socket_state : state :=
  mkState [(["p"%string], NFifo)] [(["p"%string], NOther)] true true [] [] [] [].


Lemma mkdir_parents_exists p x st : node_at (tgt_fs st) p = Some x ->
  mkdir_parents Target p st = if is_dir_node x then (Ret tt, st) else (Raise FileExistsError, st).
Proof.
  intros Ht. destruct p as [|y p]; [simpl in Ht; injection Ht as <-; reflexivity|].
  cbn [mkdir_parents].
  unfold try_except, os_mkdir, os_mknode, is_dir, bind, stat, raise, ret; cbn [fs_of fst snd].
  pose proof Ht as Ht2. simpl in Ht2. rewrite Ht. destruct x; simpl; rewrite ?Ht2; reflexivity.
Qed.



(* ------------------------------------------------------------------ *)
(** ** The form of a digest *)

Local Open Scope Z_scope.

Definition hex_chars : list ascii := list_ascii_of_string "0123456789abcdef".

Lemma hex_digit_ok n : 0 <= n < 16 -> In (MD5.hex_digit n) hex_chars.
Proof.
  intros H.
  assert (Hb : forallb (fun k => existsb (Ascii.eqb (MD5.hex_digit (Z.of_nat k))) hex_chars)
                       (seq 0 16) = true) by (vm_compute; reflexivity).
  rewrite forallb_forall in Hb. specialize (Hb (Z.to_nat n) ltac:(apply in_seq; lia)).
  rewrite Z2Nat.id in Hb by lia.
  apply existsb_exists in Hb as (ch & Hin & E). apply Ascii.eqb_eq in E. rewrite E. exact Hin.
Qed.

Lemma le_bytes_range n x : forall b, In b (MD5.le_bytes n x) -> 0 <= b < 256.
Proof.
  intros b Hb. unfold MD5.le_bytes in Hb. apply in_map_iff in Hb as (k & <- & _).
  change 255 with (Z.ones 8). rewrite Z.land_ones by lia. apply Z.mod_pos_bound. lia.
Qed.

Lemma le_bytes_length n x : List.length (MD5.le_bytes n x) = n.
Proof. unfold MD5.le_bytes. rewrite length_map, length_seq. reflexivity. Qed.

Lemma hex_string_ok bs : (forall b, In b bs -> 0 <= b < 256) ->
  String.length (MD5.hex_string bs) = (2 * List.length bs)%nat /\
  forall ch, In ch (list_ascii_of_string (MD5.hex_string bs)) -> In ch hex_chars.
Proof.
  induction bs as [|b bs IH]; intros H; [split; [reflexivity|intros ch []]|].
  destruct IH as [IH1 IH2]; [intros b' Hb'; apply H; right; exact Hb'|].
  assert (Hb : 0 <= b < 256) by (apply H; left; reflexivity).
  simpl. split; [rewrite IH1; lia|].
  intros ch [<-|[<-|Hch]]; [| |exact (IH2 _ Hch)]; apply hex_digit_ok.
  - rewrite Z.shiftr_div_pow2 by lia. change (2 ^ 4) with 16.
    split; [apply Z.div_pos; lia|apply Z.div_lt_upper_bound; lia].
  - change 15 with (Z.ones 4). rewrite Z.land_ones by lia. apply Z.mod_pos_bound. lia.
Qed.

(** Every value [get_md5] returns for a file it can read is a string of
    32 lowercase hexadecimal digits, as [hexdigest()] gives it. *)
Theorem hexdigest_form msg :
  String.length (MD5.hexdigest msg) = 32%nat /\
  forall ch, In ch (list_ascii_of_string (MD5.hexdigest msg)) -> In ch hex_chars.
Proof.
  unfold MD5.hexdigest.
  destruct (hex_string_ok (MD5.digest_Z msg)) as [H1 H2].
  - intros b Hb. unfold MD5.digest_Z in Hb. repeat (apply in_app_or in Hb as [Hb|Hb]);
      exact (le_bytes_range _ _ _ Hb).
  - split; [|exact H2]. rewrite H1. unfold MD5.digest_Z.
    rewrite !length_app, !le_bytes_length. reflexivity.
Qed.

Local Close Scope Z_scope.

(* ------------------------------------------------------------------ *)
(** ** The removal phase *)

Lemma path_mem_filter q l f : path_mem q (filter f l) = path_mem q l && f q.
Proof.
  destruct (path_mem q (filter f l)) eqn:E1.
  - apply path_mem_In, filter_In in E1 as [E1 E2]. apply path_mem_In in E1. rewrite E1, E2. reflexivity.
  - symmetry. apply andb_false_iff. destruct (path_mem q l) eqn:E2; [|left; reflexivity].
    right. destruct (f q) eqn:E3; [|reflexivity]. exfalso.
    apply path_mem_In in E2. assert (In q (filter f l)) by (apply filter_In; auto).
    apply path_mem_In in H. congruence.
Qed.


(** A target with a kept file [k], an orphan file [f], an orphan empty
    directory [e], and an orphan directory [o] holding an orphan file. *)
Definition removal_state : state :=
  mkState [(["k"%string], NFile (list_byte_of_string "1") Readable)]
          [(["k"%string], NFile (list_byte_of_string "1") Readable);
           (["f"%string], NFile (list_byte_of_string "2") Readable);
           (["e"%string], NDir);
           (["o"%string], NDir);
           (["g"%string; "o"%string], NFile (list_byte_of_string "3") Readable)]
          true true [] [] [] [].

(** The snapshots [get_files_in_path] takes of [removal_state]. *)
Definition removal_S : pydict := [(["k"%string], PyHex (MD5.hexdigest (list_byte_of_string "1")))].

Definition removal_T : pydict :=
  [(["k"%string], PyHex (MD5.hexdigest (list_byte_of_string "1")));
   (["f"%string], PyHex (MD5.hexdigest (list_byte_of_string "2")));
   (["e"%string], PyNone); (["o"%string], PyNone);
   (["g"%string; "o"%string], PyHex (MD5.hexdigest (list_byte_of_string "3")))].




(* ------------------------------------------------------------------ *)
(** ** Passes over trees *)



(** Whether the target [G] holds what the source [F] has at [p]
    (the decidable form of [sat]). *)
Definition sat_b (F G : fsys) (p : path) : bool :=
  match node_at F p with
  | Some (NFile c _) =>
      match node_at G p with
      | Some (NFile c' Readable) => String.eqb (MD5.hexdigest c') (MD5.hexdigest c)
      | _ => false
      end
  | Some NDir => is_dir_opt (node_at G p)
  | Some NFifo => match node_at G p with Some NFifo => true | _ => false end
  | _ => true
  end.

(** The decidable form of [synced]. *)
Definition synced_b (F G : fsys) : bool :=
  forallb (fun e => negb (listed (Some (snd e))) || listed (node_at F (fst e))) G &&
  forallb (fun e => negb (listed (Some (snd e))) || sat_b F G (fst e)) F.

Lemma sat_b_sat F G p : sat_b F G p = true -> sat F G p.
Proof.
  unfold sat_b, sat. destruct (node_at F p) as [[c a| | |]|]; intros H; auto.
  - destruct (node_at G p) as [[c' [| |k]| | |]|]; try discriminate.
    exists c'. split; [reflexivity|]. apply String.eqb_eq, H.
  - apply is_dir_opt_true, H.
  - destruct (node_at G p) as [[]|]; try discriminate. reflexivity.
Qed.

Lemma synced_b_synced F G : synced_b F G = true -> synced F G.
Proof.
  unfold synced_b. intros H. apply andb_true_iff in H as [H1 H2].
  rewrite forallb_forall in H1, H2. split.
  - intros q Hq Hl. destruct (node_at G q) as [x|] eqn:Ex; [|discriminate].
    specialize (H1 _ (node_at_cons_In _ _ _ Hq Ex)). cbn [fst snd] in H1.
    rewrite Hl in H1. exact H1.
  - intros q Hq Hl. destruct (node_at F q) as [x|] eqn:Ex; [|discriminate].
    specialize (H2 _ (node_at_cons_In _ _ _ Hq Ex)). cbn [fst snd] in H2.
    rewrite Hl in H2. apply sat_b_sat, H2.
Qed.


(** Equal trees holding a file, a directory with a file in it and a
    named pipe, listed in different orders. *)
Definition synced_state : state :=
  mkState [(["a"%string], NFile (list_byte_of_string "1") Readable); (["d"%string], NDir);
           (["b"%string; "d"%string], NFile (list_byte_of_string "2") Readable); (["p"%string], NFifo)]
          [(["p"%string], NFifo); (["d"%string], NDir);
           (["b"%string; "d"%string], NFile (list_byte_of_string "2") Readable);
           (["a"%string], NFile (list_byte_of_string "1") Readable)]
          true true [] [] [] [].


